(** * Data Insights dashboard (app.py): model and verified properties

    The dashboard is a single script.  Its own logic is the column-name
    helper [make_columns_unique], the chart renderer loop, the summary
    reporter and the keyword query section; everything else is a call into
    the dataframe library.  The library calls are modelled by small
    executable functions that follow the library's behaviour (pandas 2):
    missing values are dropped by [value_counts] and [groupby], group keys
    come out sorted, [reset_index] refuses a label that is already there.
    Numbers are the library's machine numbers: an int64 column is summed
    in int64, which wraps around, and means and the sums of a float64
    column are float64, accumulated with the compensated summation the
    library uses.  Where the library leaves the order of ties open the
    model keeps the earlier element first; no property below depends on it.
    A derived frame is modelled by its rows; the labels it carries are
    recorded where they can clash. *)

From Stdlib Require Import ZArith QArith List Ascii String Sorting.Sorted Permutation Lia.
From Stdlib Require Import Floats.
From stdpp Require Import base gmap strings list pretty.

Close Scope Q_scope.
Local Open Scope string_scope.
Local Open Scope nat_scope.
Local Open Scope list_scope.

(** ** Ingestion: column-name helper (app.py, lines 11-21) *)

Module Ingestion.

(** The suffixed name built by the f-string [f"{col}.{seen[col]}"]. *)
Definition suffixed (col : string) (n : nat) : string :=
  col +:+ "." +:+ pretty n.

(** One iteration of the [for col in columns] loop.  The state is the
    dictionary [seen] and the list [new_cols] built so far. *)
Definition unique_step (st : gmap string nat * list string) (col : string)
  : gmap string nat * list string :=
  let '(seen, new_cols) := st in
  match seen !! col with
  | Some n => (<[col := S n]> seen, new_cols ++ [suffixed col (S n)])
  | None => (<[col := 0]> seen, new_cols ++ [col])
  end.

Definition make_columns_unique (columns : list string) : list string :=
  snd (fold_left unique_step columns (∅, [])).

(** What the specification says, written from its words: the number of
    earlier occurrences of a name decides how it is renamed. *)
Definition occurrences (c : string) (l : list string) : nat :=
  length (filter (λ c', c' = c) l).

Definition renamed (n : nat) (c : string) : string :=
  match n with
  | 0 => c
  | S _ => suffixed c n
  end.

Definition rename_repeats (columns : list string) : list string :=
  imap (λ i c, renamed (occurrences c (take i columns)) c) columns.

(** A string without a dot, as the decimal rendering of a number is. *)
Fixpoint dotless (s : string) : Prop :=
  match s with
  | EmptyString => True
  | String a s' => a ≠ "."%char ∧ dotless s'
  end.

(** No name of the list is the suffixed form of a name of the list. *)
Definition suffix_free (columns : list string) : Prop :=
  ∀ c c' n, c ∈ columns → c' ∈ columns → c ≠ suffixed c' (S n).

(** Loop invariant: after the prefix [p] the dictionary holds, for every
    name seen, one less than its number of occurrences in [p]. *)
Definition seen_tracks (seen : gmap string nat) (p : list string) : Prop :=
  ∀ c, seen !! c = match occurrences c p with 0 => None | S n => Some n end.

End Ingestion.

(** ** Reading the upload (app.py, lines 32-38) *)

Module Reading.

(** The parser call the script picks. *)
Inductive Reader :=
  | ReadExcel (engine : string)
  | ReadCsv.

(** [s.endswith(suffix)]: some tail of [s] is [suffix]. *)
Fixpoint endswith (s suffix : string) : bool :=
  bool_decide (s = suffix) ||
  match s with
  | EmptyString => false
  | String _ s' => endswith s' suffix
  end.

Definition choose_reader (name : string) : Reader :=
  if endswith name ".xlsx" then ReadExcel "openpyxl"
  else if endswith name ".xls" then ReadExcel "xlrd"
  else ReadCsv.

End Reading.

(** ** The dataframe library, as far as the script uses it *)

Module Pandas.

(** Exceptions the script lets surface to the user. *)
Inductive exn :=
  | KeyError (label : string)
  | TypeError
  | IndexError
  | ValueError.

Inductive result (A : Type) :=
  | Ok (a : A)
  | Raise (e : exn).
Arguments Ok {A} a.
Arguments Raise {A} e.

Global Instance result_bind : MBind result := λ A B f r,
  match r with
  | Ok a => f a
  | Raise e => Raise e
  end.

(** *** Machine numbers *)

(** An integer read back as a 64-bit two's complement number: what int64
    arithmetic leaves of an exact result. *)
Definition wrap64 (z : Z) : Z := ((z + 2 ^ 63) mod 2 ^ 64 - 2 ^ 63)%Z.

(** The float64 nearest to an integer, ties to even: the conversion of an
    int64 to float64. *)
Definition float_of_Z (z : Z) : float :=
  SF2Prim (binary_normalize prec emax z 0 false).

Global Instance float_eq_dec : EqDecision float.
Proof.
  intros a b. destruct (PrimFloat.Leibniz.eqb a b) eqn:E.
  - left. by apply FloatAxioms.Leibniz.eqb_spec.
  - right. intros H. apply FloatAxioms.Leibniz.eqb_spec in H. congruence.
Defined.

(** A float64 cell read as a label: NaN is the missing value, and the
    library's hash tables take negative zero for the same label as zero. *)
Definition float_label (f : float) : option float :=
  if is_nan f then None else Some (if is_zero f then 0%float else f).

(** *** Columns *)

(** A non-missing cell, or a label of a derived series. *)
Inductive key :=
  | KNum (z : Z)
  | KFloat (f : float)
  | KStr (s : string).

(** The values of a numeric column.  An int64 column holds integers
    from -2^63 to 2^63 - 1 and has no missing value; in a float64 column
    NaN is the missing value.  A column of whole numbers with a missing
    cell is a float64 column. *)
Inductive numeric :=
  | Int64 (v : list Z)
  | Float64 (v : list float).

(** A column has one inferred type; a cell of a text column is [None] when
    missing. *)
Inductive column :=
  | NumCol (v : numeric)
  | StrCol (v : list (option string)).

Definition cells (c : column) : list (option key) :=
  match c with
  | NumCol (Int64 v) => map (λ z, Some (KNum z)) v
  | NumCol (Float64 v) => map (λ f, KFloat <$> float_label f) v
  | StrCol v => map (fmap KStr) v
  end.

Definition is_numeric (c : column) : bool :=
  match c with
  | NumCol _ => true
  | StrCol _ => false
  end.

Record Dataset := { columns : list (string * column) }.

Definition column_names (df : Dataset) : list string := map fst (columns df).

(** [df.shape[0]]: every column of a frame has the same length. *)
Definition nrows (df : Dataset) : nat :=
  match columns df with
  | [] => 0
  | (_, c) :: _ => length (cells c)
  end.

Definition well_formed (df : Dataset) : Prop :=
  Forall (λ p, length (cells (snd p)) = nrows df) (columns df).

(** [df[x]]: the column labelled [x] (the first one, should a label occur
    twice), or [KeyError]. *)
Fixpoint find_column (cols : list (string * column)) (x : string) : option column :=
  match cols with
  | [] => None
  | (name, c) :: cols' => if decide (name = x) then Some c else find_column cols' x
  end.

Definition get (df : Dataset) (x : string) : result column :=
  match find_column (columns df) x with
  | Some c => Ok c
  | None => Raise (KeyError x)
  end.

(** [x in df.columns] *)
Definition has_column (df : Dataset) (x : string) : bool :=
  bool_decide (x ∈ column_names df).

(** [select_dtypes(include="number")] and [select_dtypes(exclude="number")] *)
Definition numeric_cols (df : Dataset) : list string :=
  map fst (filter (λ p, is_numeric (snd p) = true) (columns df)).

Definition categorical_cols (df : Dataset) : list string :=
  map fst (filter (λ p, is_numeric (snd p) = false) (columns df)).

(** Ordering of labels: numbers by value, text by code units.  The
    labels of one column are of one kind; between kinds, integers go
    before floats and numbers before text. *)
Definition key_leb (a b : key) : bool :=
  match a, b with
  | KNum m, KNum n => (m <=? n)%Z
  | KFloat f, KFloat g => (f <=? g)%float
  | KStr s, KStr t => String.leb s t
  | KNum _, _ => true
  | KFloat _, KStr _ => true
  | _, _ => false
  end.

Global Instance key_eq_dec : EqDecision key.
Proof. solve_decision. Defined.

Definition key_lt (a b : key) : Prop := key_leb a b = true ∧ a ≠ b.

Global Instance key_lt_dec : RelDecision key_lt.
Proof. intros a b. unfold key_lt. apply _. Defined.

(** Stable insertion sort under a boolean "goes before or ties" test. *)
Fixpoint insert_by {A} (le : A → A → bool) (a : A) (l : list A) : list A :=
  match l with
  | [] => [a]
  | b :: l' => if le a b then a :: l else b :: insert_by le a l'
  end.

Definition sort_by {A} (le : A → A → bool) (l : list A) : list A :=
  foldr (insert_by le) [] l.

(** [Series.reset_index(name=...)]: the index of a grouped or counted
    series, labelled [index_label], is inserted as a column before the
    values, labelled [name]; inserting a label that is already there
    raises. *)
Definition reset_index {V} (index_label name : string) (rows : list (key * V))
  : result (list (key * V)) :=
  if decide (index_label = name) then Raise ValueError else Ok rows.

(** *** value_counts *)

(** Counting pass: one counter per distinct value, in order of first
    appearance. *)
Fixpoint bump (k : key) (t : list (key * nat)) : list (key * nat) :=
  match t with
  | [] => [(k, 1)]
  | (k', n) :: t' =>
      if decide (k = k') then (k', S n) :: t' else (k', n) :: bump k t'
  end.

Definition count_step (t : list (key * nat)) (c : option key) : list (key * nat) :=
  match c with
  | Some k => bump k t
  | None => t
  end.

Definition count_table (col : list (option key)) : list (key * nat) :=
  fold_left count_step col [].

Definition more_frequent (a b : key * nat) : bool := (snd b <=? snd a)%nat.

(** [Series.value_counts()]: missing cells are dropped, the counts come
    out in descending order, ties in order of first appearance. *)
Definition value_counts (col : list (option key)) : list (key * nat) :=
  sort_by more_frequent (count_table col).

(** *** groupby *)

(** Groups are kept sorted by key and hold the values of their rows in row
    order; a row either joins its group or opens a new one at its place. *)
Fixpoint upsert {V} (k : key) (v : V) (g : list (key * list V))
  : list (key * list V) :=
  match g with
  | [] => [(k, [v])]
  | (k', vs) :: g' =>
      if decide (k = k') then (k', vs ++ [v]) :: g'
      else if decide (key_lt k k') then (k, [v]) :: g
      else (k', vs) :: upsert k v g'
  end.

Definition group_step {V} (g : list (key * list V)) (row : option key * V)
  : list (key * list V) :=
  match fst row with
  | Some k => upsert k (snd row) g
  | None => g
  end.

(** [df.groupby(x)[y]]: rows with a missing key are dropped, groups are
    sorted by key. *)
Definition groupby {V} (keys : list (option key)) (vals : list V)
  : list (key * list V) :=
  fold_left group_step (combine keys vals) [].

(** The groups of a numeric column keep its type. *)
Definition groupby_numeric (keys : list (option key)) (vals : numeric)
  : list (key * numeric) :=
  match vals with
  | Int64 l => map (λ p, (fst p, Int64 (snd p))) (groupby keys l)
  | Float64 l => map (λ p, (fst p, Float64 (snd p))) (groupby keys l)
  end.

(** *** Reductions of a group *)

(** The value of a cell of a result: an int64 or a float64 (NaN among
    them). *)
Inductive scalar :=
  | SInt (z : Z)
  | SFloat (f : float).

(** Sum of int64 values: every addition wraps around. *)
Definition int_sum (l : list Z) : Z :=
  fold_left (λ acc z, wrap64 (acc + z)) l 0%Z.

(** Sum of float64 values: the library adds them up in row order with
    Kahan's compensated summation; a compensation that is NaN (after an
    infinite value) is reset. *)
Record kahan := { sumx : float; compensation : float }.

Definition kahan_add (st : kahan) (val : float) : kahan :=
  let y := (val - compensation st)%float in
  let t := (sumx st + y)%float in
  let c := (t - sumx st - y)%float in
  {| sumx := t; compensation := if is_nan c then 0%float else c |}.

Definition float_sum (l : list float) : float :=
  sumx (fold_left kahan_add l {| sumx := 0; compensation := 0 |}).

(** The values of a float64 group that enter a reduction: NaN is skipped. *)
Definition present (l : list float) : list float :=
  filter (λ f, is_nan f = false) l.

(** Mean of float64 values: their sum divided by their number, NaN when
    there is none. *)
Definition float_mean (l : list float) : float :=
  match l with
  | [] => nan
  | _ :: _ => (float_sum l / float_of_Z (Z.of_nat (length l)))%float
  end.

(** [.sum()]: an int64 group is summed in int64, a float64 group in
    float64. *)
Definition agg_sum (v : numeric) : scalar :=
  match v with
  | Int64 l => SInt (int_sum l)
  | Float64 l => SFloat (float_sum (present l))
  end.

(** [.mean()]: always a float64; int64 values are converted first. *)
Definition agg_mean (v : numeric) : float :=
  match v with
  | Int64 l => float_mean (map float_of_Z l)
  | Float64 l => float_mean (present l)
  end.

(** [.count()]: the number of non-missing values. *)
Definition agg_count (v : numeric) : scalar :=
  match v with
  | Int64 l => SInt (Z.of_nat (length l))
  | Float64 l => SInt (Z.of_nat (length (present l)))
  end.

(** The value column of an aggregation has to be numeric (the
    configuration cards only offer [numeric_cols], app.py line 116); what
    the library does with text there is not modelled any further. *)
Definition numeric_values (c : column) : result numeric :=
  match c with
  | NumCol v => Ok v
  | StrCol _ => Raise TypeError
  end.

(** *** Text *)

(** A piece of text: a string, or the text of a float64 whose digits are
    not computed here. *)
Inductive text :=
  | Text (s : string)
  | FloatText (f : float).

(** The whole number a float64 holds, if it holds one (negative zero
    apart). *)
Definition float_integer (f : float) : option Z :=
  match Prim2SF f with
  | S754_zero false => Some 0%Z
  | S754_finite s m e =>
      let z := if (0 <=? e)%Z then (Z.pos m * 2 ^ e)%Z
               else (Z.pos m / 2 ^ (- e))%Z in
      if (0 <=? e)%Z || (Z.pos m mod 2 ^ (- e) =? 0)%Z
      then Some (if s then (- z)%Z else z)
      else None
  | _ => None
  end.

(** Python's [str] of a float64 is the shortest decimal that reads back as
    the same number: for a whole number below 10^16 its digits followed by
    ".0".  The digits of the other numbers are not computed: the text
    keeps the number. *)
Definition float_str (f : float) : text :=
  match float_integer f with
  | Some z =>
      if (Z.abs z <? 10 ^ 16)%Z then Text (pretty z +:+ ".0") else FloatText f
  | None => FloatText f
  end.

(** Python's [str] of a label, as [str(category)] and an f-string give
    it: a string is itself and an int64 its decimal digits. *)
Definition key_str (k : key) : text :=
  match k with
  | KNum z => Text (pretty z)
  | KFloat f => float_str f
  | KStr s => Text s
  end.

(** The pieces of an f-string put together: neighbouring strings run
    into one. *)
Fixpoint join (pieces : list text) : list text :=
  match pieces with
  | [] => []
  | Text s :: rest =>
      match join rest with
      | Text t :: rest' => Text (s +:+ t) :: rest'
      | joined => Text s :: joined
      end
  | piece :: rest => piece :: join rest
  end.

(** *** Reference notions the properties are stated with *)

(** First entry of an association list under a label. *)
Fixpoint assoc {V} (k : key) (l : list (key * V)) : option V :=
  match l with
  | [] => None
  | (k', v) :: l' => if decide (k = k') then Some v else assoc k l'
  end.

(** Number of cells of a column holding [k]. *)
Definition occurrences_of (k : key) (col : list (option key)) : nat :=
  length (filter (λ c, c = Some k) col).

(** Number of non-missing cells of a column. *)
Definition non_missing (col : list (option key)) : nat :=
  length (filter (λ c, c ≠ None) col).

(** The values found in the rows whose category is [k], in row order. *)
Definition group_values {V} (k : key) (rows : list (option key * V)) : list V :=
  map snd (filter (λ r, fst r = Some k) rows).

Definition numeric_length (vals : numeric) : nat :=
  match vals with
  | Int64 l => length l
  | Float64 l => length l
  end.

(** The value column restricted to the rows whose category is [k]. *)
Definition select (k : key) (keys : list (option key)) (vals : numeric) : numeric :=
  match vals with
  | Int64 l => Int64 (group_values k (combine keys l))
  | Float64 l => Float64 (group_values k (combine keys l))
  end.

Definition sum_Z (l : list Z) : Z := foldr Z.add 0%Z l.

(** A label that a cell can give: a float label is a number, and zero is
    in its positive form. *)
Definition is_label (k : key) : Prop :=
  match k with
  | KFloat f => float_label f = Some f
  | _ => True
  end.

(** Every non-missing cell is a label. *)
Definition labels_only (keys : list (option key)) : Prop :=
  ∀ k, Some k ∈ keys → is_label k.

(** An exact integer result that an int64 can hold. *)
Definition fits_int64 (z : Z) : Prop := (- 2 ^ 63 ≤ z < 2 ^ 63)%Z.

Definition sum_counts (t : list (key * nat)) : nat := sum_list_with snd t.

(** Invariant of the counting pass after the cells [p]. *)
Definition counts_track (t : list (key * nat)) (p : list (option key)) : Prop :=
  NoDup (map fst t) ∧
  (∀ k, assoc k t = match occurrences_of k p with 0 => None | S n => Some (S n) end) ∧
  sum_counts t = non_missing p.

(** Invariant of the grouping pass after the rows [p]. *)
Definition groups_track {V} (g : list (key * list V))
    (p : list (option key * V)) : Prop :=
  StronglySorted key_lt (map fst g) ∧
  Forall is_label (map fst g) ∧
  ∀ k, assoc k g = if decide (Some k ∈ map fst p)
                   then Some (group_values k p) else None.

End Pandas.

(** ** The uploaded frame gets its labels (app.py, line 40) *)

Module Upload.
Import Ingestion Pandas.




End Upload.

(** ** Dataset overview and column types (app.py, lines 46-58) *)

Module Profiler.
Import Pandas.

Definition row : Type := list (option key).

(** The [i]-th row of the frame, read across its columns. *)
Definition row_at (df : Dataset) (i : nat) : row :=
  map (λ p, default None (cells (snd p) !! i)) (columns df).

Definition rows (df : Dataset) : list row :=
  map (row_at df) (seq 0 (nrows df)).

(** [df.isna().sum()]: the number of missing cells of one column. *)
Definition missing_in (col : list (option key)) : nat :=
  length (filter (λ c, c = None) col).

(** [df.isna().sum().sum()] *)
Definition missing_values (df : Dataset) : nat :=
  sum_list (map (λ p, missing_in (cells (snd p))) (columns df)).

(** [df.duplicated()]: a row is marked when an equal row came before it
    (missing cells compare equal to missing cells). *)
Fixpoint duplicated_from (seen : list row) (rs : list row) : list bool :=
  match rs with
  | [] => []
  | r :: rest =>
      if decide (r ∈ seen) then true :: duplicated_from seen rest
      else false :: duplicated_from (r :: seen) rest
  end.

Definition duplicated (df : Dataset) : list bool := duplicated_from [] (rows df).

(** [df.duplicated().sum()] *)
Definition marked (mask : list bool) : nat :=
  length (filter (λ b, b = true) mask).

Definition duplicate_rows (df : Dataset) : nat := marked (duplicated df).

(** Number of distinct rows, for reference. *)
Definition distinct_count (rs : list row) : nat := length (remove_dups rs).

(** The four tiles: Rows, Columns, Missing Values, Duplicate Rows. *)
Record Overview := {
  shown_rows : nat;
  shown_columns : nat;
  shown_missing : nat;
  shown_duplicates : nat
}.

Definition overview (df : Dataset) : Overview :=
  {| shown_rows := nrows df;
     shown_columns := length (columns df);
     shown_missing := missing_values df;
     shown_duplicates := duplicate_rows df |}.

(** The frame of the specification's profiler example: ten rows, the fifth
    equal to the second, three missing cells. *)
Definition ten_rows : Dataset :=
  {| columns :=
       [("id", NumCol (Float64 [1; 2; 3; 4; 2; 6; 7; nan; 9; 10]%float));
        ("name", StrCol [Some "a"; Some "b"; None; Some "d"; Some "b";
                         Some "f"; Some "g"; Some "h"; None; Some "j"])] |}.

(** A frame of numbers only. *)
Definition measurements : Dataset :=
  {| columns := [("width", NumCol (Int64 [3; 4]%Z));
                 ("depth", NumCol (Float64 [5; nan]%float))] |}.

End Profiler.

(** ** Chart configuration and renderer (app.py, lines 78-201) *)

Module Charts.
Import Pandas.

Inductive ChartType := Bar | Line | Pie | Doughnut.

Inductive Aggregation := Sum | Mean | Count.

Inductive ColorScheme := Plotly | Set1 | Set2 | Set3 | Dark2 | Pastel.

(** One entry of [st.session_state.chart_configs]. *)
Record ChartConfig := {
  chart_type : ChartType;
  x : string;
  y : option string;
  use_agg : bool;
  agg : option Aggregation;
  top_n : Z;
  color_scheme : ColorScheme
}.

Definition set_top_n (n : Z) (cfg : ChartConfig) : ChartConfig :=
  {| chart_type := chart_type cfg; x := x cfg; y := y cfg;
     use_agg := use_agg cfg; agg := agg cfg; top_n := n;
     color_scheme := color_scheme cfg |}.

(** The "Add Chart" button: [df.columns[0]] raises on a frame without
    columns. *)
Definition add_chart (df : Dataset) (store : list ChartConfig)
  : result (list ChartConfig) :=
  match column_names df with
  | [] => Raise IndexError
  | first :: _ =>
      Ok (store ++ [ {| chart_type := Bar; x := first; y := None;
                        use_agg := false; agg := None; top_n := 15;
                        color_scheme := Plotly |} ])
  end.

(** What the plotting call receives: the plot frame (its rows and, after
    [plot_df.columns = [x, "value"]], its two labels) and the arguments
    of the call.  What the plotting library does with it, also when the
    two labels are equal, is not part of the model. *)
Inductive Trace :=
  | BarTrace
  | LineTrace (markers : bool)
  | PieTrace (hole : Q).

Record Figure := {
  trace : Trace;
  plot_df : list (key * scalar);
  labels : list string;
  category : string;
  color : option string;
  color_discrete_sequence : ColorScheme;
  title : string;
  height : Z
}.

(** Truth value of [cfg["use_agg"] and cfg["y"]]: [None] and the empty
    string are false.  When true, the value column's label is returned. *)
Definition aggregated_column (cfg : ChartConfig) : option string :=
  if use_agg cfg then
    match y cfg with
    | Some name => if decide (name = "") then None else Some name
    | None => None
    end
  else None.

(** The [if]/[elif]/[else] on [cfg["agg"]]: anything but Sum and Mean
    counts. *)
Definition reduce (a : option Aggregation) (group : numeric) : scalar :=
  match a with
  | Some Sum => agg_sum group
  | Some Mean => SFloat (agg_mean group)
  | _ => agg_count group
  end.

(** [df.groupby(x)[y].sum() / .mean() / .count()], with [reset_index]. *)
Definition aggregated_frame (df : Dataset) (x y : string) (a : option Aggregation)
  : result (list (key * scalar)) :=
  xc ← get df x;
  yc ← get df y;
  vals ← numeric_values yc;
  reset_index x "value"
    (map (λ p, (fst p, reduce a (snd p))) (groupby_numeric (cells xc) vals)).

(** The counts of [value_counts()] as the values of a frame. *)
Definition counts_frame (t : list (key * nat)) : list (key * scalar) :=
  map (λ p, (fst p, SInt (Z.of_nat (snd p)))) t.

(** [df[x].value_counts().reset_index(name="value")] (line 163): the
    counts are relabelled "value" and the index, labelled [x], is put
    beside them. *)
Definition frequency_frame (df : Dataset) (x : string) : result (list (key * scalar)) :=
  xc ← get df x;
  reset_index x "value" (counts_frame (value_counts (cells xc))).

(** [df[x].value_counts().reset_index()] (line 186): here the counts keep
    the label "count" that [value_counts()] gives them. *)
Definition pie_frame (df : Dataset) (x : string) : result (list (key * scalar)) :=
  xc ← get df x;
  reset_index x "count" (counts_frame (value_counts (cells xc))).

Definition chart_title (i : nat) : string := "Chart " +:+ pretty (i + 1).

(** Body of the "Generate All Charts" loop for the [i]-th configuration. *)
Definition render (df : Dataset) (i : nat) (cfg : ChartConfig) : result Figure :=
  let colors := color_scheme cfg in
  match chart_type cfg with
  | Bar | Line =>
      frame ← match aggregated_column cfg with
              | Some yname => aggregated_frame df (x cfg) yname (agg cfg)
              | None => frequency_frame df (x cfg)
              end;
      Ok (match chart_type cfg with
          | Bar => {| trace := BarTrace; plot_df := frame;
                      labels := [x cfg; "value"]; category := x cfg;
                      color := Some (x cfg); color_discrete_sequence := colors;
                      title := chart_title i; height := 500 |}
          | _ => {| trace := LineTrace true; plot_df := frame;
                    labels := [x cfg; "value"]; category := x cfg;
                    color := None; color_discrete_sequence := colors;
                    title := chart_title i; height := 500 |}
          end)
  | _ =>
      frame ← pie_frame df (x cfg);
      Ok {| trace := PieTrace (match chart_type cfg with
                               | Doughnut => 45 # 100
                               | _ => 0
                               end);
            plot_df := frame; labels := [x cfg; "value"];
            category := x cfg; color := Some (x cfg);
            color_discrete_sequence := colors; title := chart_title i;
            height := 500 |}
  end.

(** The whole loop: charts are painted in store order until one raises. *)
Fixpoint generate_from (df : Dataset) (i : nat) (cfgs : list ChartConfig)
  : list Figure * option exn :=
  match cfgs with
  | [] => ([], None)
  | cfg :: rest =>
      match render df i cfg with
      | Ok fig => let '(figs, e) := generate_from df (S i) rest in (fig :: figs, e)
      | Raise e => ([], Some e)
      end
  end.

Definition generate_all_charts (df : Dataset) (cfgs : list ChartConfig)
  : list Figure * option exn :=
  generate_from df 0 cfgs.

(** *** Reference notions the properties are stated with *)

(** [s] is the selected aggregate of the values [group] of one category:
    the sum in the column's own arithmetic (an int64 sum is the exact sum
    wrapped to 64 bits), the float64 mean, or the number of non-missing
    values. *)
Definition aggregate_of (a : Aggregation) (group : numeric) (s : scalar) : Prop :=
  match a, group with
  | Sum, Int64 l => s = SInt (wrap64 (sum_Z l))
  | Sum, Float64 l => s = SFloat (float_sum (present l))
  | Mean, Int64 l => s = SFloat (float_mean (map float_of_Z l))
  | Mean, Float64 l => s = SFloat (float_mean (present l))
  | Count, Int64 l => s = SInt (Z.of_nat (length l))
  | Count, Float64 l => s = SInt (Z.of_nat (length (present l)))
  end.

(** Sum of the integer values of a plot frame. *)
Definition frame_total (frame : list (key * scalar)) : Z :=
  sum_Z (map (λ p, match snd p with SInt z => z | _ => 0%Z end) frame).

(** Two configurations that agree on every field but [top_n]. *)
Definition differ_only_in_top_n (c1 c2 : ChartConfig) : Prop :=
  chart_type c1 = chart_type c2 ∧ x c1 = x c2 ∧ y c1 = y c2 ∧
  use_agg c1 = use_agg c2 ∧ agg c1 = agg c2 ∧
  color_scheme c1 = color_scheme c2.

(** Overwrite the aggregation settings of a configuration. *)
Definition with_aggregation (u : bool) (yv : option string)
    (a : option Aggregation) (cfg : ChartConfig) : ChartConfig :=
  {| chart_type := chart_type cfg; x := x cfg; y := yv; use_agg := u;
     agg := a; top_n := top_n cfg; color_scheme := color_scheme cfg |}.

(** The example of the specification: make = [A, A, B], price = [10, 20, 30]. *)
Definition cars : Dataset :=
  {| columns := [("make", StrCol [Some "A"; Some "A"; Some "B"]);
                 ("price", NumCol (Int64 [10; 20; 30]%Z))] |}.

(** Prices at the upper end of int64, whose sum does not fit, and prices
    above 2^53, where neighbouring integers are one float64. *)
Definition dear_cars : Dataset :=
  {| columns := [("make", StrCol [Some "A"; Some "A"]);
                 ("price", NumCol (Int64 [9223372036854775807; 1]%Z))] |}.

Definition close_prices : Dataset :=
  {| columns := [("make", StrCol [Some "A"; Some "B"]);
                 ("price", NumCol (Int64 [9007199254740992; 9007199254740993]%Z))] |}.

(** Prices given in words: a text column. *)
Definition worded_prices : Dataset :=
  {| columns := [("make", StrCol [Some "A"; Some "B"]);
                 ("price", StrCol [Some "cheap"; Some "dear"])] |}.

(** A frame whose category column is labelled "value", and one whose
    category column is labelled "count". *)
Definition value_frame : Dataset :=
  {| columns := [("value", StrCol [Some "A"; Some "A"; Some "B"]);
                 ("price", NumCol (Int64 [10; 20; 30]%Z))] |}.

Definition count_frame : Dataset :=
  {| columns := [("count", StrCol [Some "A"; Some "A"; Some "B"])] |}.

Definition chart_of (t : ChartType) (label : string) : ChartConfig :=
  {| chart_type := t; x := label; y := None; use_agg := false;
     agg := None; top_n := 15; color_scheme := Plotly |}.

Definition value_sums : ChartConfig :=
  {| chart_type := Bar; x := "value"; y := Some "price"; use_agg := true;
     agg := Some Sum; top_n := 15; color_scheme := Plotly |}.

Definition bar_of (a : Aggregation) : ChartConfig :=
  {| chart_type := Bar; x := "make"; y := Some "price"; use_agg := true;
     agg := Some a; top_n := 15; color_scheme := Plotly |}.

(** A column with a missing cell, and the configuration "Add Chart" makes. *)
Definition gappy : Dataset :=
  {| columns := [("make", StrCol [Some "A"; None])] |}.

Definition plain (t : ChartType) : ChartConfig :=
  {| chart_type := t; x := "make"; y := None; use_agg := false;
     agg := None; top_n := 15; color_scheme := Plotly |}.

(** Six distinct makes: more than the smallest [top_n] the slider allows. *)
Definition six_makes : Dataset :=
  {| columns := [("make", StrCol [Some "A"; Some "B"; Some "C"; Some "D";
                                  Some "E"; Some "F"])] |}.

(** *** The configuration cards (app.py, lines 90-138) *)

(** What the widgets of one card return in a rerun.  [card_y] is the
    value-column selectbox, which offers [numeric_cols] and returns
    [None] when there is nothing to offer; it is only shown (and read) for
    a Bar or Line chart with the aggregation box ticked. *)
Record CardInput := {
  card_chart_type : ChartType;
  card_x : string;
  card_use_agg : bool;
  card_y : option string;
  card_agg : Aggregation;
  card_color_scheme : ColorScheme;
  card_top_n : Z
}.

(** One card: every field of the configuration is overwritten. *)
Definition configure (w : CardInput) (cfg : ChartConfig) : ChartConfig :=
  let aggregated :=
    match card_chart_type w with
    | Bar | Line => card_use_agg w
    | _ => false
    end in
  {| chart_type := card_chart_type w;
     x := card_x w;
     use_agg := card_use_agg w;
     y := if aggregated then card_y w else None;
     agg := if aggregated then Some (card_agg w) else None;
     color_scheme := card_color_scheme w;
     top_n := card_top_n w |}.

(** The loop over the store: the [i]-th card edits the [i]-th entry. *)
Definition configure_all (ws : list CardInput) (store : list ChartConfig)
  : list ChartConfig :=
  zip_with configure ws store.

(** What the selectboxes can return for a frame: a label of the frame for
    the category, a numeric label (or nothing) for the value. *)
Definition offered (df : Dataset) (w : CardInput) : Prop :=
  card_x w ∈ column_names df ∧
  ∀ name, card_y w = Some name → name ∈ numeric_cols df.

(** A category label that is none of the labels the renderer or the
    library gives the counted values. *)
Definition clash_free (label : string) : Prop :=
  label ≠ "value" ∧ label ≠ "count".

(** The frame [cars] without its price column. *)
Definition three_rows_no_price : Dataset :=
  {| columns := [("make", StrCol [Some "A"; Some "A"; Some "B"])] |}.

(** A card as a user may fill it in for the frame [cars]. *)
Definition mean_line : CardInput :=
  {| card_chart_type := Line; card_x := "make"; card_use_agg := true;
     card_y := Some "price"; card_agg := Mean; card_color_scheme := Set2;
     card_top_n := 10 |}.

End Charts.

(** ** Summary reporter: category frequencies (app.py, lines 212-229) *)

Module Summary.
Import Pandas.

Record FrequencyRow := { Column : string; Category : text; Count : Z }.

(** The inner loop over [df[col].value_counts().head(5).items()]. *)
Definition column_rows (col : string) (c : column) : list FrequencyRow :=
  map (λ p, {| Column := col; Category := key_str (fst p);
               Count := Z.of_nat (snd p) |})
      (take 5 (value_counts (cells c))).

(** The outer loop over [categorical_cols], appending to [freq_rows]. *)
Fixpoint collect_rows (df : Dataset) (cols : list string) : result (list FrequencyRow) :=
  match cols with
  | [] => Ok []
  | col :: rest =>
      c ← get df col;
      rows ← collect_rows df rest;
      Ok (column_rows col c ++ rows)
  end.

(** Order of [sort_values(by=["Column", "Count"], ascending=[True, False])]. *)
Definition row_before (r1 r2 : FrequencyRow) : bool :=
  if decide (Column r1 = Column r2) then (Count r2 <=? Count r1)%Z
  else String.leb (Column r1) (Column r2).

(** [pd.DataFrame(freq_rows).sort_values(by=[...])]: a frame built from an
    empty list of records has no columns at all, so the sort cannot find
    its first key and raises. *)
Definition sort_values (rows : list FrequencyRow) : result (list FrequencyRow) :=
  match rows with
  | [] => Raise (KeyError "Column")
  | _ :: _ => Ok (sort_by row_before rows)
  end.

Definition freq_table (df : Dataset) : result (list FrequencyRow) :=
  rows ← collect_rows df (categorical_cols df);
  sort_values rows.

(** *** Reference notions the properties are stated with *)

(** Column ascending, then Count descending. *)
Definition row_order (r1 r2 : FrequencyRow) : Prop :=
  (String.le (Column r1) (Column r2) ∧ Column r1 ≠ Column r2) ∨
  (Column r1 = Column r2 ∧ (Count r2 ≤ Count r1)%Z).

(** The rows the table is made of: for every categorical column, in frame
    order, its five most frequent values. *)
Definition top_rows (df : Dataset) : list FrequencyRow :=
  flat_map (λ p, column_rows (fst p) (snd p))
           (filter (λ p, is_numeric (snd p) = false) (columns df)).

(** A frame whose only column is numeric. *)
Definition prices_only : Dataset :=
  {| columns := [("price", NumCol (Int64 [10; 20; 30]%Z))] |}.

End Summary.

(** ** Query section (app.py, lines 248-260) *)

Module Query.
Import Pandas.

(** [str.lower()], on the ASCII letters. *)
Definition lower_ascii (c : ascii) : ascii :=
  let n := nat_of_ascii c in
  if (65 <=? n)%nat && (n <=? 90)%nat then ascii_of_nat (n + 32) else c.

Fixpoint lower (s : string) : string :=
  match s with
  | EmptyString => EmptyString
  | String c s' => String (lower_ascii c) (lower s')
  end.

(** [needle in hay] on strings. *)
Fixpoint contains (needle hay : string) : bool :=
  String.prefix needle hay ||
  match hay with
  | EmptyString => false
  | String _ hay' => contains needle hay'
  end.

(** What the section shows: nothing, a success box or an info box.  The
    text of a success box is an f-string (see [join]). *)
Inductive output :=
  | Nothing
  | Success (msg : list text)
  | Info (msg : string).

Definition asks_highest_price (df : Dataset) (q : string) : bool :=
  contains "highest" q && contains "price" q && has_column df "make".

Definition asks_most_cars (df : Dataset) (q : string) : bool :=
  contains "most" q && contains "cars" q && has_column df "make".

(** Order of [Series.sort_values(ascending=False)] on float64 values:
    larger first, NaN last. *)
Definition float_geb (a b : float) : bool :=
  if is_nan b then true
  else if is_nan a then false
  else (b <=? a)%float.

Definition higher_mean (a b : key * float) : bool := float_geb (snd a) (snd b).

(** [ans.index[0]] *)
Definition first_label {V} (ans : list (key * V)) : result key :=
  match ans with
  | [] => Raise IndexError
  | (k, _) :: _ => Ok k
  end.

(** The two f-strings of the success boxes. *)
Definition best_message (k : key) : list text :=
  join [Text "🏆 Best brand by average price: **"; key_str k; Text "**"].

Definition most_message (k : key) : list text :=
  join [Text "🚗 Brand with most cars: **"; key_str k; Text "**"].

(** [df.groupby("make")["price"].mean().sort_values(ascending=False).head(1)] *)
Definition best_by_price (df : Dataset) : result output :=
  mk ← get df "make";
  pr ← get df "price";
  vals ← numeric_values pr;
  let means :=
    map (λ p, (fst p, agg_mean (snd p))) (groupby_numeric (cells mk) vals) in
  k ← first_label (take 1 (sort_by higher_mean means));
  Ok (Success (best_message k)).

(** [df["make"].value_counts().head(1)] *)
Definition most_cars (df : Dataset) : result output :=
  mk ← get df "make";
  k ← first_label (take 1 (value_counts (cells mk)));
  Ok (Success (most_message k)).

Definition fallback : output :=
  Info "This query needs AI-based understanding (can be added later).".

(** The section itself: nothing is shown for an empty query. *)
Definition query_section (df : Dataset) (query : string) : result output :=
  if decide (query = "") then Ok Nothing
  else
    let q := lower query in
    if asks_highest_price df q then best_by_price df
    else if asks_most_cars df q then most_cars df
    else Ok fallback.

(** *** Reference notions the properties are stated with *)

(** The float64 mean of the prices of one make (NaN when it has none). *)
Definition mean_price (k : key) (makes : list (option key)) (prices : numeric)
  : float :=
  agg_mean (select k makes prices).

(** The float64 [a] ranks at least as high as [b]: [b] is NaN, or both are
    numbers and [b] is not above [a]. *)
Definition at_least (a b : float) : Prop :=
  is_nan b = true ∨ (is_nan a = false ∧ (b <=? a)%float = true).

(** The examples of the specification. *)
Definition two_makes : Dataset :=
  {| columns := [("make", StrCol [Some "A"; Some "B"]);
                 ("price", NumCol (Int64 [100; 50]%Z))] |}.

Definition three_cars : Dataset :=
  {| columns := [("make", StrCol [Some "A"; Some "A"; Some "B"])] |}.

(** One cheap make with two cars, one dear make with one. *)
Definition fleet : Dataset :=
  {| columns := [("make", StrCol [Some "A"; Some "A"; Some "B"]);
                 ("price", NumCol (Int64 [10; 20; 30]%Z))] |}.

(** A frame whose makes are all blank: a column of blanks is read as
    float64. *)
Definition blank_makes : Dataset :=
  {| columns := [("make", NumCol (Float64 [nan; nan]));
                 ("price", NumCol (Int64 [10; 20]%Z))] |}.

(** Makes that are whole numbers with a blank: a float64 column. *)
Definition numbered_makes : Dataset :=
  {| columns := [("make", NumCol (Float64 [1; nan; 1]%float))] |}.

End Query.

(** * Properties *)

Module IngestionFacts.
Import Ingestion.

Lemma occurrences_snoc c c' p :
  occurrences c (p ++ [c']) = occurrences c p + (if decide (c' = c) then 1 else 0).
Proof.
  unfold occurrences. rewrite filter_app, length_app. f_equal.
  rewrite filter_cons, filter_nil. by destruct (decide (c' = c)).
Qed.

Lemma seen_tracks_nil : seen_tracks ∅ [].
Proof. intros c. by rewrite lookup_empty. Qed.

Lemma seen_tracks_step seen p col :
  seen_tracks seen p →
  seen_tracks (fst (unique_step (seen, []) col)) (p ++ [col]).
Proof.
  intros Hinv c. rewrite occurrences_snoc. unfold unique_step.
  pose proof (Hinv col) as Hcol. pose proof (Hinv c) as Hc.
  destruct (decide (col = c)) as [->|Hne].
  - destruct (occurrences c p) as [|n]; rewrite Hc; simpl;
      rewrite lookup_insert_eq; f_equal; lia.
  - rewrite Nat.add_0_r.
    destruct (seen !! col); simpl; by rewrite lookup_insert_ne.
Qed.

Lemma unique_fold r : ∀ p seen out,
  seen_tracks seen p →
  snd (fold_left unique_step r (seen, out))
  = out ++ imap (λ i c, renamed (occurrences c (p ++ take i r)) c) r.
Proof.
  induction r as [|col r IH]; intros p seen out Hinv.
  - by rewrite app_nil_r.
  - pose proof (seen_tracks_step _ _ col Hinv) as Hinv'.
    pose proof (Hinv col) as Hcol.
    cbn [fold_left imap take]. rewrite app_nil_r.
    unfold unique_step in Hinv' |- * at 2. fold unique_step.
    destruct (occurrences col p) as [|n] eqn:Hocc; rewrite Hcol in Hinv' |- *;
      cbn [fst] in Hinv'; rewrite (IH _ _ _ Hinv'), <- app_assoc; cbn [app renamed];
      do 2 f_equal; apply imap_ext; intros i c _; cbn;
      by rewrite <- app_assoc.
Qed.

(** *** When the renamed columns are distinct *)

Lemma dotless_pretty_N_go x : ∀ s, dotless s → dotless (pretty_N_go x s).
Proof.
  induction (N.lt_wf_0 x) as [x _ IH]; intros s Hs.
  destruct (decide (x = 0)%N) as [->|Hx]; [by rewrite pretty_N_go_0|].
  rewrite pretty_N_go_step by lia. apply IH.
  - apply N.div_lt; lia.
  - split; [|done]. unfold pretty_N_char. by repeat case_match.
Qed.

Lemma dotless_pretty (n : nat) : dotless (pretty n).
Proof.
  unfold pretty, pretty_nat, pretty, pretty_N.
  case_decide; [by repeat split|]. by apply dotless_pretty_N_go.
Qed.

Lemma append_nil s : "" +:+ s = s.
Proof. reflexivity. Qed.

Lemma append_cons a s t : String a s +:+ t = String a (s +:+ t).
Proof. reflexivity. Qed.

Lemma dotted_not_dotless s t : ¬ dotless (s +:+ "." +:+ t).
Proof.
  induction s as [|a s IH]; rewrite ?append_cons, ?append_nil; simpl.
  - by intros [? _].
  - by intros [_ ?].
Qed.

Lemma dotted_inj c c' d d' :
  dotless d → dotless d' →
  c +:+ "." +:+ d = c' +:+ "." +:+ d' → c = c' ∧ d = d'.
Proof.
  intros Hd Hd'. revert c'.
  induction c as [|a c IH]; intros [|a' c'];
    rewrite ?append_cons, ?append_nil; intros E.
  - by simplify_eq.
  - simplify_eq. by destruct (dotted_not_dotless c' d').
  - simplify_eq. by destruct (dotted_not_dotless c d).
  - simplify_eq. by destruct (IH c') as [-> ->].
Qed.

Lemma suffixed_inj c c' n n' : suffixed c n = suffixed c' n' → c = c' ∧ n = n'.
Proof.
  intros E. apply dotted_inj in E as [-> E]; auto using dotless_pretty.
  split; [done|]. by apply (inj pretty).
Qed.

Lemma occurrences_take_lt columns i j c :
  i < j → columns !! i = Some c →
  occurrences c (take i columns) < occurrences c (take j columns).
Proof.
  intros Hij Hi.
  assert (take j columns !! i = Some c) as Hj by (by rewrite lookup_take_lt).
  rewrite <- (take_drop_middle _ _ _ Hj), take_take, Nat.min_l by lia.
  unfold occurrences. rewrite filter_app, length_app, filter_cons_True by done.
  simpl. lia.
Qed.

Lemma occurrences_take_inj columns i j c :
  columns !! i = Some c → columns !! j = Some c →
  occurrences c (take i columns) = occurrences c (take j columns) → i = j.
Proof.
  intros Hi Hj E. destruct (Nat.lt_trichotomy i j) as [Hlt|[?|Hlt]]; [|done|].
  - pose proof (occurrences_take_lt _ _ _ _ Hlt Hi). lia.
  - pose proof (occurrences_take_lt _ _ _ _ Hlt Hj). lia.
Qed.

Lemma rename_repeats_NoDup columns :
  suffix_free columns → NoDup (rename_repeats columns).
Proof.
  intros Hfree. apply NoDup_alt. intros i j name.
  unfold rename_repeats. rewrite !list_lookup_imap.
  destruct (columns !! i) as [c|] eqn:Hi; [|done].
  destruct (columns !! j) as [c'|] eqn:Hj; [|done]. simpl.
  intros [= Hc] [= Hc']. subst name.
  assert (c ∈ columns) as Hin by (by eapply list_elem_of_lookup_2).
  assert (c' ∈ columns) as Hin' by (by eapply list_elem_of_lookup_2).
  destruct (occurrences c (take i columns)) as [|n] eqn:Hn,
    (occurrences c' (take j columns)) as [|n'] eqn:Hn'; simpl in Hc'.
  - subst c'. apply (occurrences_take_inj columns i j c); congruence.
  - by destruct (Hfree c c' n').
  - by destruct (Hfree c' c n).
  - apply suffixed_inj in Hc' as [-> [= ->]].
    apply (occurrences_take_inj columns i j c); congruence.
Qed.

(** C2: [make_columns_unique] keeps the first occurrence of every name and
    renames its n-th repeat (n >= 1) to [<name>.<n>], that is, it computes
    [rename_repeats]; on [a, a, a] it returns [a, a.1, a.2]. *)
Theorem make_columns_unique_renames :
  (∀ columns, make_columns_unique columns = rename_repeats columns) ∧
  make_columns_unique ["a"; "a"; "a"] = ["a"; "a.1"; "a.2"].
Proof.
  split; [|by vm_compute].
  intros columns. unfold make_columns_unique.
  by rewrite (unique_fold columns [] ∅ [] seen_tracks_nil).
Qed.

(** The helper on its own is not proof against every list: on [a, a, a.1]
    the second [a] is renamed to [a.1], which the third name already is.
    Such a list does not reach it in the script, where its argument is
    the labels of a frame a reader returned. *)
Lemma make_columns_unique_clash :
  make_columns_unique ["a"; "a"; "a.1"] = ["a"; "a.1"; "a.1"] ∧
  ¬ NoDup (make_columns_unique ["a"; "a"; "a.1"]).
Proof.
  assert (make_columns_unique ["a"; "a"; "a.1"] = ["a"; "a.1"; "a.1"]) as E
    by (by vm_compute).
  split; [exact E|]. rewrite E. intros Hnd.
  apply NoDup_cons in Hnd as [_ Hnd]. apply NoDup_cons in Hnd as [Hnin _].
  apply Hnin. by left.
Qed.

(** X3: the renamed columns are pairwise distinct when no column name of
    the input is the suffixed form of a column name of the input. *)
Lemma make_columns_unique_NoDup columns :
  suffix_free columns → NoDup (make_columns_unique columns).
Proof.
  intros Hfree. unfold make_columns_unique.
  rewrite (unique_fold columns [] ∅ [] seen_tracks_nil).
  by apply rename_repeats_NoDup.
Qed.

End IngestionFacts.

(** ** The dataframe operations *)

Module PandasFacts.
Import Pandas.

Lemma StronglySorted_weaken {A} (R R' : A → A → Prop) l :
  (∀ a b, R a b → R' a b) → StronglySorted R l → StronglySorted R' l.
Proof.
  intros HR. induction 1 as [|a l _ IH Hall]; constructor; [done|].
  eapply Forall_impl; [exact Hall|]. auto.
Qed.

Section sorting.
Context {A : Type} (le : A → A → bool).

Lemma insert_by_perm a l : insert_by le a l ≡ₚ a :: l.
Proof.
  induction l as [|b l IH]; [done|]. simpl.
  destruct (le a b); [done|]. by rewrite IH, Permutation_swap.
Qed.

Lemma sort_by_perm l : sort_by le l ≡ₚ l.
Proof.
  induction l as [|a l IH]; [done|]. simpl.
  by rewrite insert_by_perm, IH.
Qed.

Hypothesis le_total : ∀ a b, le a b = false → le b a = true.
Hypothesis le_trans : ∀ a b c, le a b = true → le b c = true → le a c = true.

Lemma insert_by_sorted a l :
  StronglySorted (λ a b, le a b = true) l →
  StronglySorted (λ a b, le a b = true) (insert_by le a l).
Proof.
  induction 1 as [|b l Hs IH Hb]; simpl.
  - repeat constructor.
  - destruct (le a b) eqn:Hab.
    + constructor; [by constructor|]. constructor; [done|].
      eapply Forall_impl; [exact Hb|]. intros c Hc. by eapply le_trans.
    + constructor; [done|].
      rewrite insert_by_perm. constructor; [|done]. by apply le_total.
Qed.

Lemma sort_by_sorted l : StronglySorted (λ a b, le a b = true) (sort_by le l).
Proof.
  induction l as [|a l IH]; simpl; [constructor|]. by apply insert_by_sorted.
Qed.

(** The first element of a sorted list goes before every element. *)
Lemma sort_by_head a l' l :
  (∀ a, le a a = true) →
  sort_by le l = a :: l' → ∀ b, b ∈ l → le a b = true.
Proof.
  intros Hrefl Hs b Hb. pose proof (sort_by_sorted l) as Hsorted.
  rewrite <- (sort_by_perm l), Hs in Hb. rewrite Hs in Hsorted.
  apply StronglySorted_inv in Hsorted as [_ Hall].
  apply elem_of_cons in Hb as [->|Hb]; [done|].
  by eapply Forall_forall in Hall.
Qed.
End sorting.

(** *** Machine numbers *)

Lemma wrap64_fits z : fits_int64 z → wrap64 z = z.
Proof.
  unfold fits_int64, wrap64. intros Hz. rewrite Z.mod_small by lia. lia.
Qed.

Lemma wrap64_add z z' : wrap64 (wrap64 z + z') = wrap64 (z + z').
Proof.
  unfold wrap64. f_equal.
  replace (z + 2 ^ 63 - 2 ^ 63 + z' + 2 ^ 63)%Z with (z + z' + 2 ^ 63)%Z by lia.
  replace ((z + 2 ^ 63) mod 2 ^ 64 - 2 ^ 63 + z' + 2 ^ 63)%Z
    with ((z + 2 ^ 63) mod 2 ^ 64 + z')%Z by lia.
  rewrite Zplus_mod_idemp_l. f_equal. lia.
Qed.

Lemma sum_Z_snoc l z : sum_Z (l ++ [z]) = (sum_Z l + z)%Z.
Proof. unfold sum_Z. induction l as [|a l IH]; simpl; [lia|]. rewrite IH. lia. Qed.

(** Wrapping at every addition gives the exact sum, wrapped once. *)
Lemma int_sum_wrap l : int_sum l = wrap64 (sum_Z l).
Proof.
  unfold int_sum. induction l as [|z l IH] using rev_ind; [done|].
  by rewrite fold_left_app, sum_Z_snoc, IH; simpl; rewrite wrap64_add.
Qed.

Lemma SFcompare_refl x : x ≠ S754_nan → SFcompare x x = Some Eq.
Proof.
  destruct x as [s|s| |s m e]; try done; intros _; simpl.
  - by destruct s.
  - rewrite Z.compare_refl, Pos.compare_cont_refl. by destruct s.
Qed.

Lemma is_nan_spec f : is_nan f = true ↔ Prim2SF f = S754_nan.
Proof.
  unfold is_nan. rewrite FloatAxioms.eqb_spec. unfold SFeqb.
  destruct (Prim2SF f) as [s|s| |s m e] eqn:E; try done.
  all: rewrite SFcompare_refl by done; simpl; split; done.
Qed.

Lemma is_nan_false f : is_nan f = false ↔ Prim2SF f ≠ S754_nan.
Proof. rewrite <- is_nan_spec. by destruct (is_nan f). Qed.

Lemma is_zero_spec f : is_zero f = true ↔ ∃ s, Prim2SF f = S754_zero s.
Proof.
  unfold is_zero. rewrite FloatAxioms.eqb_spec. unfold SFeqb.
  change (Prim2SF zero) with (S754_zero false).
  destruct (Prim2SF f) as [s|s| |s m e]; simpl.
  - split; [by eexists|done].
  - destruct s; split; try done; by intros [? ?].
  - split; try done; by intros [? ?].
  - destruct s; split; try done; by intros [? ?].
Qed.

(** A float label is a number other than negative zero. *)
Lemma float_label_fixed f :
  float_label f = Some f ↔ Prim2SF f ≠ S754_nan ∧ Prim2SF f ≠ S754_zero true.
Proof.
  unfold float_label. destruct (is_nan f) eqn:Hnan.
  - apply is_nan_spec in Hnan. split; [done|]. by intros [? _].
  - apply is_nan_false in Hnan. destruct (is_zero f) eqn:Hz.
    + apply is_zero_spec in Hz as [s Hs]. split.
      * intros [= <-]. by split.
      * intros [_ Hnz]. f_equal. apply Prim2SF_inj. rewrite Hs.
        destruct s; [done|]. reflexivity.
    + split; [|done]. intros _. split; [done|]. intros Hz'.
      assert (is_zero f = true) by (apply is_zero_spec; by eexists). congruence.
Qed.

Lemma float_label_idemp f g : float_label f = Some g → float_label g = Some g.
Proof.
  unfold float_label at 1. destruct (is_nan f) eqn:Hnan; [done|].
  destruct (is_zero f) eqn:Hz; intros [= <-]; [reflexivity|].
  unfold float_label. by rewrite Hnan, Hz.
Qed.

Lemma float_label_not_nan f : float_label f = Some f → is_nan f = false.
Proof. unfold float_label. by destruct (is_nan f). Qed.

Ltac compare_cases :=
  repeat match goal with
  | |- context [Z.compare ?a ?b] => destruct (Z.compare_spec a b)
  | |- context [Pos.compare_cont Eq ?a ?b] =>
      change (Pos.compare_cont Eq a b) with (Pos.compare a b);
      destruct (Pos.compare_spec a b)
  | H : context [Z.compare ?a ?b] |- _ => destruct (Z.compare_spec a b)
  | H : context [Pos.compare_cont Eq ?a ?b] |- _ =>
      change (Pos.compare_cont Eq a b) with (Pos.compare a b) in H;
      destruct (Pos.compare_spec a b)
  end.

Lemma SFleb_total x y :
  x ≠ S754_nan → y ≠ S754_nan → SFleb x y = false → SFleb y x = true.
Proof.
  unfold SFleb.
  destruct x as [s|s| |s m e], y as [s'|s'| |s' m' e']; try done; intros _ _;
    simpl; try (by destruct s); try (by destruct s'); try (by destruct s, s').
  destruct s, s'; try done; compare_cases; simpl; try done; subst; lia.
Qed.

Lemma SFleb_trans x y z :
  SFleb x y = true → SFleb y z = true → SFleb x z = true.
Proof.
  unfold SFleb.
  destruct x as [s|s| |s m e], y as [s'|s'| |s' m' e'], z as [s''|s''| |s'' m'' e''];
    try done; simpl;
    try (by destruct s); try (by destruct s'); try (by destruct s'');
    try (by destruct s, s'); try (by destruct s, s''); try (by destruct s', s'');
    try (by destruct s, s', s'').
  destruct s, s', s''; try done; compare_cases; simpl; try done; subst; lia.
Qed.

Lemma SFleb_antisym x y :
  x ≠ S754_zero true → y ≠ S754_zero true →
  SFleb x y = true → SFleb y x = true → x = y.
Proof.
  unfold SFleb.
  destruct x as [s|s| |s m e], y as [s'|s'| |s' m' e']; try done; simpl;
    try (by destruct s); try (by destruct s'); try (by destruct s, s').
  intros _ _. destruct s, s'; try done; compare_cases; simpl; try done;
    subst; try lia; done.
Qed.

(** The order of float64 numbers: NaN aside, [<=?] is a total preorder,
    and an order on labels. *)
Lemma float_leb_refl f : is_nan f = false → (f <=? f)%float = true.
Proof.
  intros Hf. apply is_nan_false in Hf. rewrite leb_spec. unfold SFleb.
  by rewrite SFcompare_refl.
Qed.

Lemma float_leb_total f g :
  is_nan f = false → is_nan g = false →
  (f <=? g)%float = false → (g <=? f)%float = true.
Proof. rewrite !is_nan_false, !leb_spec. apply SFleb_total. Qed.

Lemma float_leb_trans f g h :
  (f <=? g)%float = true → (g <=? h)%float = true → (f <=? h)%float = true.
Proof. rewrite !leb_spec. apply SFleb_trans. Qed.

Lemma float_leb_antisym f g :
  float_label f = Some f → float_label g = Some g →
  (f <=? g)%float = true → (g <=? f)%float = true → f = g.
Proof.
  rewrite !float_label_fixed, !leb_spec. intros [_ Hf] [_ Hg] Hfg Hgf.
  apply Prim2SF_inj. by apply SFleb_antisym.
Qed.

(** *** The order on labels *)

Lemma string_leb_le s t : String.leb s t = true ↔ String.le s t.
Proof. unfold String.le. by rewrite Is_true_true. Qed.

Lemma cells_labels c k : Some k ∈ cells c → is_label k.
Proof.
  destruct c as [[l|l]|l]; simpl; intros Hin;
    apply list_elem_of_fmap in Hin as (a & E & _).
  - by injection E as ->.
  - destruct (float_label a) as [g|] eqn:Hg; [|done]. injection E as ->.
    simpl. by eapply float_label_idemp.
  - destruct a; [|done]. by injection E as ->.
Qed.

Lemma key_leb_refl a : is_label a → key_leb a a = true.
Proof.
  destruct a as [z|f|s]; simpl; intros Ha; [lia| |].
  - by apply float_leb_refl, float_label_not_nan.
  - apply string_leb_le. reflexivity.
Qed.

Lemma key_leb_trans a b c :
  key_leb a b = true → key_leb b c = true → key_leb a c = true.
Proof.
  destruct a, b, c; simpl; try done; try lia.
  - apply float_leb_trans.
  - rewrite !string_leb_le. intros. by etrans.
Qed.

Lemma key_leb_antisym a b :
  is_label a → is_label b → key_leb a b = true → key_leb b a = true → a = b.
Proof.
  destruct a, b; simpl; try done.
  - intros. f_equal. lia.
  - intros. f_equal. by apply float_leb_antisym.
  - rewrite !string_leb_le. intros. f_equal. by apply (anti_symm String.le).
Qed.

Lemma key_leb_total a b :
  is_label a → is_label b → key_leb a b = false → key_leb b a = true.
Proof.
  destruct a as [m|f|s], b as [n|g|t]; simpl; try done; try lia.
  - intros Hf Hg. by apply float_leb_total; apply float_label_not_nan.
  - intros _ _ Hst. apply string_leb_le.
    destruct (total String.le s t) as [Hle|Hle]; [|done].
    apply string_leb_le in Hle. congruence.
Qed.

Lemma key_lt_irrefl a : ¬ key_lt a a.
Proof. by intros [_ ?]. Qed.

Lemma key_lt_trans a b c :
  is_label a → is_label b → key_lt a b → key_lt b c → key_lt a c.
Proof.
  intros Ha Hb [Hab Hne] [Hbc Hne']. split; [by eapply key_leb_trans|].
  intros ->. apply Hne. by apply key_leb_antisym.
Qed.

Lemma key_lt_trichotomy a b :
  is_label a → is_label b → a ≠ b → ¬ key_lt a b → key_lt b a.
Proof.
  intros Ha Hb Hne Hnlt. split; [|done].
  destruct (key_leb a b) eqn:Hab; [|by apply key_leb_total].
  destruct Hnlt. by split.
Qed.

Lemma key_lt_sorted_NoDup l : StronglySorted key_lt l → NoDup l.
Proof.
  induction 1 as [|a l _ IH Hall]; constructor; [|done].
  intros Hin. rewrite Forall_forall in Hall.
  by apply (key_lt_irrefl a), Hall.
Qed.

(** *** Association lists *)

Section assoc.
Context {V : Type}.
Implicit Types (l : list (key * V)) (k : key) (v : V).

Lemma assoc_None k l : assoc k l = None ↔ k ∉ map fst l.
Proof.
  induction l as [|[k' v'] l IH]; simpl.
  - split; [intros _; apply not_elem_of_nil|done].
  - rewrite not_elem_of_cons. destruct (decide (k = k')); [intuition congruence|].
    rewrite IH. intuition congruence.
Qed.

Lemma assoc_Some_elem_of k v l : assoc k l = Some v → (k, v) ∈ l.
Proof.
  induction l as [|[k' v'] l IH]; simpl; [done|].
  destruct (decide (k = k')) as [->|Hne].
  - intros [= ->]. by left.
  - intros. right. auto.
Qed.

Lemma elem_of_assoc k v l : NoDup (map fst l) → (k, v) ∈ l → assoc k l = Some v.
Proof.
  induction l as [|[k' v'] l IH]; simpl; intros Hnd Hin.
  - by apply elem_of_nil in Hin.
  - apply NoDup_cons in Hnd as [Hnin Hnd].
    apply elem_of_cons in Hin as [[= -> ->]|Hin].
    + by rewrite decide_True.
    + rewrite decide_False; [auto|]. intros ->. apply Hnin.
      apply list_elem_of_fmap. by exists (k', v).
Qed.

Lemma assoc_is_Some k l : is_Some (assoc k l) ↔ k ∈ map fst l.
Proof.
  rewrite <- not_eq_None_Some, assoc_None.
  destruct (decide (k ∈ map fst l)); intuition congruence.
Qed.
End assoc.

(** *** value_counts *)

Lemma occurrences_of_snoc k c p :
  occurrences_of k (p ++ [c])
  = occurrences_of k p + (if decide (c = Some k) then 1 else 0).
Proof.
  unfold occurrences_of. rewrite filter_app, length_app. f_equal.
  rewrite filter_cons, filter_nil. by destruct (decide (c = Some k)).
Qed.

Lemma non_missing_snoc c p :
  non_missing (p ++ [c]) = non_missing p + (if c is Some _ then 1 else 0).
Proof.
  unfold non_missing. rewrite filter_app, length_app. f_equal.
  rewrite filter_cons, filter_nil. destruct c; by case_decide.
Qed.

Lemma bump_assoc k k' t :
  assoc k' (bump k t)
  = if decide (k' = k) then Some (S (default 0 (assoc k t))) else assoc k' t.
Proof.
  induction t as [|[k0 n] t IH]; simpl.
  - by destruct (decide (k' = k)).
  - destruct (decide (k = k0)) as [->|Hne]; simpl.
    + by destruct (decide (k' = k0)).
    + rewrite IH. destruct (decide (k' = k0)) as [->|]; [|done].
      by rewrite decide_False.
Qed.

Lemma bump_keys k k' t : k' ∈ map fst (bump k t) ↔ k' = k ∨ k' ∈ map fst t.
Proof.
  rewrite <- !assoc_is_Some, bump_assoc.
  destruct (decide (k' = k)) as [->|]; [|intuition congruence].
  split; [auto|]. intros _. by eexists.
Qed.

Lemma bump_NoDup k t : NoDup (map fst t) → NoDup (map fst (bump k t)).
Proof.
  induction t as [|[k0 n] t IH]; simpl; intros Hnd.
  - apply NoDup_singleton.
  - apply NoDup_cons in Hnd as [Hnin Hnd].
    destruct (decide (k = k0)) as [->|Hne]; simpl.
    + by apply NoDup_cons.
    + apply NoDup_cons. split; [|auto].
      rewrite bump_keys. intuition congruence.
Qed.

Lemma bump_sum k t : sum_counts (bump k t) = S (sum_counts t).
Proof.
  unfold sum_counts. induction t as [|[k0 n] t IH]; simpl; [done|].
  destruct (decide (k = k0)); simpl; [done|]. rewrite IH. lia.
Qed.

Lemma counts_track_nil : counts_track [] [].
Proof. split; [constructor|]. by split. Qed.

Lemma counts_track_step t p c :
  counts_track t p → counts_track (count_step t c) (p ++ [c]).
Proof.
  intros (Hnd & Hassoc & Hsum). destruct c as [k|]; simpl.
  - split; [by apply bump_NoDup|]. split.
    + intros k'. rewrite bump_assoc, occurrences_of_snoc.
      destruct (decide (k' = k)) as [->|Hne].
      * rewrite decide_True by done. rewrite Hassoc.
        destruct (occurrences_of k p); simpl; f_equal; lia.
      * rewrite decide_False by congruence. by rewrite Nat.add_0_r.
    + rewrite bump_sum, non_missing_snoc, Hsum. lia.
  - split; [done|]. split.
    + intros k. rewrite occurrences_of_snoc, decide_False by done.
      by rewrite Nat.add_0_r.
    + rewrite non_missing_snoc. lia.
Qed.

Lemma counts_track_fold r : ∀ t p,
  counts_track t p → counts_track (fold_left count_step r t) (p ++ r).
Proof.
  induction r as [|c r IH]; intros t p Hinv; simpl.
  - by rewrite app_nil_r.
  - rewrite cons_middle, app_assoc. by apply IH, counts_track_step.
Qed.

Lemma count_table_tracks col : counts_track (count_table col) col.
Proof. apply (counts_track_fold col [] []), counts_track_nil. Qed.

Lemma more_frequent_total a b : more_frequent a b = false → more_frequent b a = true.
Proof. unfold more_frequent. rewrite Nat.leb_le, Nat.leb_gt. lia. Qed.

Lemma more_frequent_trans a b c :
  more_frequent a b = true → more_frequent b c = true → more_frequent a c = true.
Proof. unfold more_frequent. rewrite !Nat.leb_le. lia. Qed.

Lemma value_counts_perm col : value_counts col ≡ₚ count_table col.
Proof. apply sort_by_perm. Qed.

(** The labels of [value_counts] are pairwise distinct. *)
Lemma value_counts_NoDup col : NoDup (map fst (value_counts col)).
Proof.
  rewrite (value_counts_perm col). apply count_table_tracks.
Qed.

(** Every label carries the number of cells holding it, and exactly the
    values that occur are labels. *)
Lemma value_counts_elem_of col k n :
  (k, n) ∈ value_counts col ↔ n = occurrences_of k col ∧ 0 < n.
Proof.
  rewrite (value_counts_perm col).
  destruct (count_table_tracks col) as (Hnd & Hassoc & _).
  specialize (Hassoc k). split.
  - intros Hin. apply (elem_of_assoc _ _ _ Hnd) in Hin. rewrite Hin in Hassoc.
    destruct (occurrences_of k col); [done|]. injection Hassoc as ->. lia.
  - intros [-> Hpos]. apply assoc_Some_elem_of. rewrite Hassoc.
    destruct (occurrences_of k col); [lia|done].
Qed.

(** The counts add up to the number of non-missing cells. *)
Lemma value_counts_sum col : sum_counts (value_counts col) = non_missing col.
Proof.
  unfold sum_counts. rewrite (value_counts_perm col).
  apply count_table_tracks.
Qed.

(** Counts come out in descending order. *)
Lemma value_counts_sorted col :
  StronglySorted (λ a b, (snd b ≤ snd a)%nat) (value_counts col).
Proof.
  eapply StronglySorted_weaken; [|apply sort_by_sorted].
  - intros a b. unfold more_frequent. by rewrite Nat.leb_le.
  - apply more_frequent_total.
  - apply more_frequent_trans.
Qed.

(** *** groupby *)

Lemma decide_key_snoc {T} (a b : T) (k : key) (c : option key) l :
  (if decide (Some k ∈ l ++ [c]) then a else b)
  = if decide (c = Some k) then a else if decide (Some k ∈ l) then a else b.
Proof.
  destruct (decide (c = Some k)) as [->|Hne].
  - rewrite decide_True; [done|]. apply elem_of_app. right. by left.
  - destruct (decide (Some k ∈ l)) as [Hin|Hnin].
    + rewrite decide_True; [done|]. apply elem_of_app. by left.
    + rewrite decide_False; [done|]. rewrite elem_of_app, list_elem_of_singleton.
      intros [?|?]; [done|congruence].
Qed.

Section groups.
Context {V : Type}.
Implicit Types (g : list (key * list V)) (p : list (option key * V)).

Lemma upsert_keys k (v : V) g k' :
  k' ∈ map fst (upsert k v g) ↔ k' = k ∨ k' ∈ map fst g.
Proof.
  induction g as [|[k0 a] g IH]; simpl.
  - rewrite list_elem_of_singleton. split; [auto|]. intros [?|H]; [done|].
    by apply elem_of_nil in H.
  - destruct (decide (k = k0)) as [->|Hne]; simpl.
    + rewrite elem_of_cons. tauto.
    + destruct (decide (key_lt k k0)); simpl; rewrite !elem_of_cons; [tauto|].
      rewrite IH. tauto.
Qed.

Lemma upsert_labels k (v : V) g :
  is_label k → Forall is_label (map fst g) → Forall is_label (map fst (upsert k v g)).
Proof.
  intros Hk Hg. apply Forall_forall. intros k' Hk'.
  apply upsert_keys in Hk' as [->|Hk']; [done|].
  by eapply Forall_forall in Hg.
Qed.

Lemma upsert_sorted k (v : V) g :
  is_label k → Forall is_label (map fst g) →
  StronglySorted key_lt (map fst g) → StronglySorted key_lt (map fst (upsert k v g)).
Proof.
  intros Hk. induction g as [|[k0 a] g IH]; simpl; intros Hl Hs.
  - repeat constructor.
  - apply StronglySorted_inv in Hs as [Hs Hall].
    apply Forall_cons in Hl as [Hk0 Hl].
    destruct (decide (k = k0)) as [->|Hne]; simpl; [by constructor|].
    destruct (decide (key_lt k k0)) as [Hlt|Hnlt]; simpl.
    + constructor; [by constructor|]. constructor; [done|].
      eapply Forall_impl; [exact Hall|]. intros c Hc.
      by eapply (key_lt_trans k k0 c).
    + constructor; [auto|]. apply Forall_forall. intros c Hc.
      apply upsert_keys in Hc as [->|Hc].
      * by apply key_lt_trichotomy.
      * by eapply Forall_forall in Hall.
Qed.

Lemma upsert_assoc k (v : V) g k' :
  is_label k → Forall is_label (map fst g) →
  StronglySorted key_lt (map fst g) →
  assoc k' (upsert k v g)
  = if decide (k' = k) then Some (default [] (assoc k g) ++ [v])
    else assoc k' g.
Proof.
  intros Hk. induction g as [|[k0 a] g IH]; simpl; intros Hl Hs.
  - by destruct (decide (k' = k)).
  - apply StronglySorted_inv in Hs as [Hs Hall].
    apply Forall_cons in Hl as [Hk0 Hl].
    destruct (decide (k = k0)) as [->|Hne]; simpl.
    + by destruct (decide (k' = k0)).
    + destruct (decide (key_lt k k0)) as [Hlt|Hnlt]; simpl.
      * destruct (decide (k' = k)) as [->|]; [|done].
        assert (assoc k g = None) as ->; [|done].
        apply assoc_None. intros Hin. eapply Forall_forall in Hall; [|done].
        apply (key_lt_irrefl k). by eapply (key_lt_trans k k0 k).
      * rewrite (IH Hl Hs). destruct (decide (k' = k0)) as [->|]; [|done].
        by rewrite decide_False.
Qed.

Lemma group_values_snoc k p c (v : V) :
  group_values k (p ++ [(c, v)])
  = group_values k p ++ (if decide (c = Some k) then [v] else []).
Proof.
  unfold group_values. rewrite filter_app, map_app. f_equal.
  rewrite filter_cons, filter_nil. simpl.
  by destruct (decide (c = Some k)).
Qed.

Lemma groups_track_nil : groups_track (V := V) [] [].
Proof.
  split; [constructor|]. split; [constructor|]. by intros k.
Qed.

Lemma group_values_absent k p : Some k ∉ map fst p → group_values k p = [].
Proof.
  intros Hnin. unfold group_values.
  destruct (filter _ p) as [|r l] eqn:Hf; [done|]. destruct Hnin.
  assert (r ∈ filter (λ r, fst r = Some k) p) as Hr by (rewrite Hf; by left).
  apply list_elem_of_filter in Hr as [<- Hr].
  apply list_elem_of_fmap. by exists r.
Qed.

Lemma groups_track_step g p row :
  (∀ k, fst row = Some k → is_label k) →
  groups_track g p → groups_track (group_step g row) (p ++ [row]).
Proof.
  intros Hrow (Hs & Hl & Hassoc). destruct row as [c v]. unfold group_step.
  cbn [fst snd] in *. destruct c as [k|].
  - pose proof (Hrow k eq_refl) as Hk.
    split; [by apply upsert_sorted|]. split; [by apply upsert_labels|].
    intros k'.
    rewrite (upsert_assoc _ _ _ _ Hk Hl Hs), group_values_snoc, map_app.
    cbn [map fst]. rewrite decide_key_snoc.
    destruct (decide (k' = k)) as [->|Hne].
    + rewrite !decide_True by done. f_equal. rewrite Hassoc.
      destruct (decide (Some k ∈ map fst p)) as [Hin|Hnin]; cbn [default]; [done|].
      by rewrite (group_values_absent _ _ Hnin).
    + rewrite !(decide_False (P := Some k = Some k')) by congruence.
      by rewrite app_nil_r, Hassoc.
  - split; [done|]. split; [done|]. intros k.
    rewrite group_values_snoc, map_app. cbn [map fst].
    rewrite decide_key_snoc, !(decide_False (P := None = Some k)) by done.
    by rewrite app_nil_r, Hassoc.
Qed.

Lemma groups_track_fold r : ∀ g p,
  (∀ k, Some k ∈ map fst r → is_label k) →
  groups_track g p → groups_track (fold_left group_step r g) (p ++ r).
Proof.
  induction r as [|row r IH]; intros g p Hr Hinv; simpl.
  - by rewrite app_nil_r.
  - rewrite cons_middle, app_assoc. apply IH.
    + intros k Hk. apply Hr. by right.
    + apply groups_track_step; [|done]. intros k Hk. apply Hr.
      simpl. rewrite Hk. by left.
Qed.

End groups.

Lemma combine_fst_subseteq {A B} (keys : list A) (vals : list B) :
  map fst (combine keys vals) ⊆ keys.
Proof.
  revert vals. induction keys as [|k keys IH]; intros [|v vals]; simpl;
    try (intros ? H; by apply elem_of_nil in H).
  intros a Ha. apply elem_of_cons in Ha as [->|Ha]; [by left|].
  right. by eapply IH.
Qed.

Lemma groupby_tracks {V} keys (vals : list V) :
  labels_only keys →
  groups_track (groupby keys vals) (combine keys vals).
Proof.
  intros Hkeys.
  apply (groups_track_fold (combine keys vals) [] []); [|apply groups_track_nil].
  intros k Hk. apply Hkeys. by eapply combine_fst_subseteq.
Qed.

(** Group labels come out in strictly ascending order. *)
Lemma groupby_sorted {V} keys (vals : list V) :
  labels_only keys →
  StronglySorted key_lt (map fst (groupby keys vals)).
Proof. intros Hkeys. by apply groupby_tracks. Qed.

(** There is one group per key that occurs, holding the values of its
    rows in row order. *)
Lemma groupby_elem_of {V} keys (vals : list V) k vs :
  labels_only keys →
  (k, vs) ∈ groupby keys vals ↔
  Some k ∈ map fst (combine keys vals) ∧
  vs = group_values k (combine keys vals).
Proof.
  intros Hkeys.
  destruct (groupby_tracks keys vals Hkeys) as (Hs & _ & Hassoc).
  specialize (Hassoc k).
  apply key_lt_sorted_NoDup in Hs. split.
  - intros Hin. apply (elem_of_assoc _ _ _ Hs) in Hin. rewrite Hin in Hassoc.
    case_decide; [|done]. by injection Hassoc as ->.
  - intros [Hin ->]. apply assoc_Some_elem_of. rewrite Hassoc.
    by rewrite decide_True.
Qed.

Lemma combine_keys {A B} (keys : list A) (vals : list B) :
  length keys = length vals → map fst (combine keys vals) = keys.
Proof.
  revert vals. induction keys as [|k keys IH]; intros [|v vals]; simpl; try done.
  intros [= Hlen]. f_equal. auto.
Qed.

End PandasFacts.

(** ** The chart renderer *)

Module ChartsFacts.
Import Pandas Charts PandasFacts.

Lemma find_column_elem_of cols x c : find_column cols x = Some c → (x, c) ∈ cols.
Proof.
  induction cols as [|[name c'] cols IH]; simpl; [done|].
  destruct (decide (name = x)) as [->|Hne].
  - intros [= ->]. by left.
  - intros. right. auto.
Qed.

Lemma get_found df x c : find_column (columns df) x = Some c → get df x = Ok c.
Proof. unfold get. by intros ->. Qed.

Lemma counts_frame_keys t : map fst (counts_frame t) = map fst t.
Proof. unfold counts_frame. rewrite map_map. by apply map_ext. Qed.

Lemma counts_frame_elem_of t k s :
  (k, s) ∈ counts_frame t ↔ ∃ n, s = SInt (Z.of_nat n) ∧ (k, n) ∈ t.
Proof.
  unfold counts_frame. rewrite list_elem_of_fmap. split.
  - intros ([k' n] & [= -> ->] & Hin). by exists n.
  - intros (n & -> & Hin). by exists (k, n).
Qed.

Lemma counts_frame_total t : frame_total (counts_frame t) = Z.of_nat (sum_counts t).
Proof.
  unfold frame_total, counts_frame, sum_counts.
  induction t as [|[k n] t IH]; simpl in *; [done|]. rewrite IH. lia.
Qed.

Lemma reset_index_ok {V} (x name : string) (rows : list (key * V)) :
  x ≠ name → reset_index x name rows = Ok rows.
Proof. intros Hne. unfold reset_index. by rewrite decide_False. Qed.

Lemma reset_index_inv {V} (x name : string) (rows rows' : list (key * V)) :
  reset_index x name rows = Ok rows' → x ≠ name ∧ rows' = rows.
Proof. unfold reset_index. case_decide; [done|]. by intros [= <-]. Qed.

Lemma reset_index_clash {V} (name : string) (rows : list (key * V)) :
  reset_index name name rows = Raise ValueError.
Proof. unfold reset_index. by rewrite decide_True. Qed.

Lemma frequency_frame_found df x xc :
  find_column (columns df) x = Some xc → x ≠ "value" →
  frequency_frame df x = Ok (counts_frame (value_counts (cells xc))).
Proof.
  intros Hx Hne. unfold frequency_frame. rewrite (get_found _ _ _ Hx).
  simpl. by apply reset_index_ok.
Qed.

Lemma pie_frame_found df x xc :
  find_column (columns df) x = Some xc → x ≠ "count" →
  pie_frame df x = Ok (counts_frame (value_counts (cells xc))).
Proof.
  intros Hx Hne. unfold pie_frame. rewrite (get_found _ _ _ Hx).
  simpl. by apply reset_index_ok.
Qed.

Lemma pie_frame_inv df x frame :
  pie_frame df x = Ok frame →
  ∃ xc, find_column (columns df) x = Some xc ∧ x ≠ "count" ∧
        frame = counts_frame (value_counts (cells xc)).
Proof.
  unfold pie_frame, get. destruct (find_column (columns df) x) as [xc|]; [|done].
  simpl. intros Hreset. apply reset_index_inv in Hreset as [Hne ->].
  by exists xc.
Qed.

(** What a frequency frame holds: one pair per value that occurs, with its
    number of occurrences; the counts add up to the non-missing cells. *)
Lemma frequency_frame_spec col :
  NoDup (map fst (counts_frame (value_counts col))) ∧
  (∀ k s, (k, s) ∈ counts_frame (value_counts col) ↔
          s = SInt (Z.of_nat (occurrences_of k col)) ∧ 0 < occurrences_of k col) ∧
  frame_total (counts_frame (value_counts col)) = Z.of_nat (non_missing col).
Proof.
  split; [rewrite counts_frame_keys; apply value_counts_NoDup|]. split.
  - intros k s. rewrite counts_frame_elem_of. split.
    + intros (n & -> & Hin). apply value_counts_elem_of in Hin as [-> ?]. done.
    + intros [-> Hpos]. eexists. split; [done|].
      by apply value_counts_elem_of.
  - by rewrite counts_frame_total, value_counts_sum.
Qed.

Lemma non_missing_full (col : list (option key)) :
  None ∉ col → non_missing col = length col.
Proof.
  unfold non_missing. induction col as [|c col IH]; [done|].
  rewrite not_elem_of_cons. intros [Hc Hcol].
  rewrite filter_cons_True by done. simpl. f_equal. auto.
Qed.

Lemma cells_length vals : length (cells (NumCol vals)) = numeric_length vals.
Proof. destruct vals; simpl; by rewrite length_map. Qed.

Lemma groupby_numeric_keys keys vals :
  map fst (groupby_numeric keys vals)
  = match vals with
    | Int64 l => map fst (groupby keys l)
    | Float64 l => map fst (groupby keys l)
    end.
Proof. destruct vals; simpl; by rewrite map_map. Qed.

Lemma groupby_numeric_sorted keys vals :
  labels_only keys → StronglySorted key_lt (map fst (groupby_numeric keys vals)).
Proof.
  intros Hkeys. rewrite groupby_numeric_keys.
  destruct vals; by apply groupby_sorted.
Qed.

(** One group per category that occurs: the value column restricted to
    the rows of that category. *)
Lemma groupby_numeric_elem_of keys vals k group :
  labels_only keys → length keys = numeric_length vals →
  (k, group) ∈ groupby_numeric keys vals ↔
  Some k ∈ keys ∧ group = select k keys vals.
Proof.
  intros Hkeys Hlen. destruct vals as [l|l]; simpl in *;
    rewrite list_elem_of_fmap; (split;
    [ intros ([k' vs] & [= -> ->] & Hin);
      apply (groupby_elem_of _ _ _ _ Hkeys) in Hin as [Hk ->];
      by rewrite (combine_keys _ _ Hlen) in Hk
    | intros [Hk ->]; eexists (k, _); split; [done|];
      apply (groupby_elem_of _ _ _ _ Hkeys);
      by rewrite (combine_keys _ _ Hlen) ]).
Qed.

Lemma groupby_numeric_labels keys vals k :
  labels_only keys → length keys = numeric_length vals →
  k ∈ map fst (groupby_numeric keys vals) ↔ Some k ∈ keys.
Proof.
  intros Hkeys Hlen. rewrite list_elem_of_fmap. split.
  - intros ([k' group] & -> & Hin).
    by apply (groupby_numeric_elem_of _ _ _ _ Hkeys Hlen) in Hin as [? _].
  - intros Hk. eexists (k, _). split; [done|].
    by apply (groupby_numeric_elem_of _ _ _ _ Hkeys Hlen).
Qed.

(** The reduction the renderer picks computes the selected aggregate. *)
Lemma reduce_aggregate a group s :
  aggregate_of a group s ↔ s = reduce (Some a) group.
Proof. destruct a, group as [l|l]; simpl; by rewrite ?int_sum_wrap. Qed.

Lemma aggregated_frame_found df x yname a xc vals :
  find_column (columns df) x = Some xc →
  find_column (columns df) yname = Some (NumCol vals) →
  x ≠ "value" →
  aggregated_frame df x yname a
  = Ok (map (λ p, (fst p, reduce a (snd p))) (groupby_numeric (cells xc) vals)).
Proof.
  intros Hx Hy Hne. unfold aggregated_frame.
  rewrite (get_found _ _ _ Hx), (get_found _ _ _ Hy). simpl.
  by apply reset_index_ok.
Qed.

Lemma column_lengths df x y xc vals :
  well_formed df →
  find_column (columns df) x = Some xc →
  find_column (columns df) y = Some (NumCol vals) →
  length (cells xc) = numeric_length vals.
Proof.
  intros Hwf Hx Hy. unfold well_formed in Hwf. rewrite Forall_forall in Hwf.
  pose proof (Hwf _ (find_column_elem_of _ _ _ Hx)) as Hlx.
  pose proof (Hwf _ (find_column_elem_of _ _ _ Hy)) as Hly.
  cbn [snd] in Hlx, Hly. rewrite cells_length in Hly. congruence.
Qed.

Lemma render_bar_line df i cfg frame :
  chart_type cfg = Bar ∨ chart_type cfg = Line →
  match aggregated_column cfg with
  | Some yname => aggregated_frame df (x cfg) yname (agg cfg)
  | None => frequency_frame df (x cfg)
  end = Ok frame →
  ∃ fig, render df i cfg = Ok fig ∧ plot_df fig = frame ∧
         labels fig = [x cfg; "value"].
Proof.
  intros Hty Hframe. unfold render.
  destruct Hty as [-> | ->]; rewrite Hframe; simpl; by eexists.
Qed.

(** C3 (as stated, it fails): the values of an aggregated frame are the
    library's machine numbers.  The int64 sum of 9223372036854775807 and 1
    wraps around to -9223372036854775808; the float64 means of the
    neighbouring prices 9007199254740992 and 9007199254740993 are the same
    number.  No frame is built for a category column labelled "value",
    where [reset_index(name="value")] raises, nor for the mean of a text
    column. *)
Lemma aggregates_are_machine_numbers :
  (∃ fig, render dear_cars 0 (bar_of Sum) = Ok fig ∧
     plot_df fig = [(KStr "A", SInt (-9223372036854775808))]) ∧
  sum_Z [9223372036854775807; 1]%Z = 9223372036854775808%Z ∧
  (∃ fig, render close_prices 0 (bar_of Mean) = Ok fig ∧
     plot_df fig = [(KStr "A", SFloat 9007199254740992);
                    (KStr "B", SFloat 9007199254740992)]) ∧
  render value_frame 0 value_sums = Raise ValueError ∧
  render worded_prices 0 (bar_of Mean) = Raise TypeError.
Proof.
  split; [|split; [|split; [|split]]]; try (eexists; split); by vm_compute.
Qed.

(** C3 (amended): for a Bar or Line chart with aggregation enabled, a
    numeric value column and a category column not labelled "value", on a
    frame whose columns have equal length, the plot frame holds exactly one
    pair per distinct non-missing category value, in ascending order of
    category; the value of a pair is the aggregate of the value column
    over the rows of its category, in the library's arithmetic: the int64
    sum (the exact sum wrapped to 64 bits, so the exact sum when it fits)
    or the float64 sum, the float64 mean, or the number of non-missing
    entries. *)
Theorem aggregated_chart_frame df i cfg yname a xc vals :
  well_formed df →
  chart_type cfg = Bar ∨ chart_type cfg = Line →
  aggregated_column cfg = Some yname →
  agg cfg = Some a →
  find_column (columns df) (x cfg) = Some xc →
  find_column (columns df) yname = Some (NumCol vals) →
  x cfg ≠ "value" →
  ∃ fig, render df i cfg = Ok fig ∧
    StronglySorted key_lt (map fst (plot_df fig)) ∧
    (∀ k, k ∈ map fst (plot_df fig) ↔ Some k ∈ cells xc) ∧
    (∀ k s, (k, s) ∈ plot_df fig ↔
       Some k ∈ cells xc ∧ aggregate_of a (select k (cells xc) vals) s) ∧
    (∀ k l, a = Sum → Some k ∈ cells xc →
       select k (cells xc) vals = Int64 l → fits_int64 (sum_Z l) →
       (k, SInt (sum_Z l)) ∈ plot_df fig).
Proof.
  intros Hwf Hty Hagg Ha Hx Hy Hne.
  pose proof (column_lengths _ _ _ _ _ Hwf Hx Hy) as Hlen.
  assert (labels_only (cells xc)) as Hkeys by (intros k; apply cells_labels).
  destruct (render_bar_line df i cfg
    (map (λ p, (fst p, reduce (agg cfg) (snd p)))
         (groupby_numeric (cells xc) vals)) Hty)
    as (fig & Hfig & Hframe & _).
  { rewrite Hagg. by apply aggregated_frame_found. }
  assert (∀ k s, (k, s) ∈ plot_df fig ↔
            Some k ∈ cells xc ∧ aggregate_of a (select k (cells xc) vals) s)
    as Hin.
  { intros k s. rewrite Hframe, Ha, list_elem_of_fmap, reduce_aggregate. split.
    - intros ([k' group] & [= -> ->] & Hin).
      by apply (groupby_numeric_elem_of _ _ _ _ Hkeys Hlen) in Hin as [? ->].
    - intros [Hk ->]. eexists (k, _). split; [done|].
      by apply (groupby_numeric_elem_of _ _ _ _ Hkeys Hlen). }
  exists fig. split; [done|]. split; [|split; [|split]].
  - rewrite Hframe, map_map. simpl. by apply groupby_numeric_sorted.
  - intros k. rewrite Hframe, map_map. simpl.
    by apply groupby_numeric_labels.
  - exact Hin.
  - intros k l -> Hk Hsel Hfits. apply Hin. split; [done|].
    rewrite Hsel. simpl. by rewrite wrap64_fits.
Qed.

Lemma aggregated_chart_frame_witness :
  ∃ fig, render cars 0 (bar_of Mean) = Ok fig ∧
    (KStr "A", SFloat 15) ∈ plot_df fig ∧
    (KStr "B", SFloat 30) ∈ plot_df fig.
Proof.
  destruct (aggregated_chart_frame cars 0 (bar_of Mean) "price" Mean
              (StrCol [Some "A"; Some "A"; Some "B"])
              (Int64 [10; 20; 30]%Z))
    as (fig & Hfig & _ & _ & Hin & _).
  - repeat constructor.
  - left. reflexivity.
  - reflexivity.
  - reflexivity.
  - reflexivity.
  - reflexivity.
  - discriminate.
  - exists fig. split; [exact Hfig|].
    split; apply Hin; (split; [|by vm_compute]);
      apply (bool_decide_unpack _); by vm_compute.
Defined.

(** The example of the specification: Sum gives A 30 and B 30, Mean gives
    A 15 and B 30, Count gives A 2 and B 1. *)
Example aggregation_examples :
  (∃ fig, render cars 0 (bar_of Sum) = Ok fig ∧
     plot_df fig = [(KStr "A", SInt 30); (KStr "B", SInt 30)]) ∧
  (∃ fig, render cars 0 (bar_of Mean) = Ok fig ∧
     plot_df fig = [(KStr "A", SFloat 15); (KStr "B", SFloat 30)]) ∧
  (∃ fig, render cars 0 (bar_of Count) = Ok fig ∧
     plot_df fig = [(KStr "A", SInt 2); (KStr "B", SInt 1)]).
Proof. repeat split; eexists; split; by vm_compute. Qed.

(** C4 (as stated, it fails): with a missing cell in the category column the
    counts of the frequency frame add up to less than the row count; and
    for a category column labelled "value" no frame is built,
    [reset_index(name="value")] raises. *)
Lemma frequency_counts_miss_rows :
  (∃ fig, render gappy 0 (plain Bar) = Ok fig ∧
     plot_df fig = [(KStr "A", SInt 1)] ∧
     nrows gappy = 2 ∧
     frame_total (plot_df fig) ≠ Z.of_nat (nrows gappy)) ∧
  render value_frame 0 (chart_of Bar "value") = Raise ValueError.
Proof. split; [|by vm_compute]. eexists. split; [by vm_compute|]. by vm_compute. Qed.

(** C4 (amended): for a Bar or Line chart with aggregation disabled and a
    category column not labelled "value", the plot frame is the
    [value_counts] of the category column: one pair per distinct
    non-missing value with its number of occurrences; the counts add up to
    the number of non-missing cells of that column, which is the row count
    when the column has no missing cell. *)
Theorem frequency_chart_frame df i cfg xc :
  chart_type cfg = Bar ∨ chart_type cfg = Line →
  use_agg cfg = false →
  find_column (columns df) (x cfg) = Some xc →
  x cfg ≠ "value" →
  ∃ fig, render df i cfg = Ok fig ∧
    plot_df fig = counts_frame (value_counts (cells xc)) ∧
    NoDup (map fst (plot_df fig)) ∧
    (∀ k s, (k, s) ∈ plot_df fig ↔
       s = SInt (Z.of_nat (occurrences_of k (cells xc))) ∧
       0 < occurrences_of k (cells xc)) ∧
    frame_total (plot_df fig) = Z.of_nat (non_missing (cells xc)) ∧
    (well_formed df → None ∉ cells xc →
     frame_total (plot_df fig) = Z.of_nat (nrows df)).
Proof.
  intros Hty Huse Hx Hne.
  destruct (render_bar_line df i cfg (counts_frame (value_counts (cells xc))) Hty)
    as (fig & Hfig & Hframe & _).
  { unfold aggregated_column. rewrite Huse. by apply frequency_frame_found. }
  exists fig. split; [done|]. split; [done|]. rewrite Hframe.
  destruct (frequency_frame_spec (cells xc)) as (Hnd & Hin & Htot).
  split; [done|]. split; [exact Hin|]. split; [done|].
  intros Hwf Hfull. rewrite Htot, (non_missing_full _ Hfull). f_equal.
  unfold well_formed in Hwf. rewrite Forall_forall in Hwf.
  apply (Hwf _ (find_column_elem_of _ _ _ Hx)).
Qed.

Lemma frequency_chart_frame_witness :
  ∃ fig, render cars 0 (plain Line) = Ok fig ∧
    plot_df fig = counts_frame (value_counts [Some (KStr "A"); Some (KStr "A"); Some (KStr "B")]) ∧
    NoDup (map fst (plot_df fig)) ∧
    (∀ k s, (k, s) ∈ plot_df fig ↔
       s = SInt (Z.of_nat (occurrences_of k [Some (KStr "A"); Some (KStr "A"); Some (KStr "B")])) ∧
       0 < occurrences_of k [Some (KStr "A"); Some (KStr "A"); Some (KStr "B")]) ∧
    frame_total (plot_df fig) = Z.of_nat (non_missing [Some (KStr "A"); Some (KStr "A"); Some (KStr "B")]) ∧
    (well_formed cars → None ∉ [Some (KStr "A"); Some (KStr "A"); Some (KStr "B")] →
     frame_total (plot_df fig) = Z.of_nat (nrows cars)).
Proof.
  apply (frequency_chart_frame cars 0 (plain Line)
           (StrCol [Some "A"; Some "A"; Some "B"])).
  - right. reflexivity.
  - reflexivity.
  - reflexivity.
  - discriminate.
Defined.

(** C5: two configurations that differ only in [top_n] are rendered to the
    same figure (same plot frame, same chart data) or to the same error. *)
Theorem top_n_has_no_effect df i c1 c2 :
  differ_only_in_top_n c1 c2 → render df i c1 = render df i c2.
Proof.
  intros (Hty & Hx & Hy & Huse & Hagg & Hcol).
  unfold render, aggregated_column. by rewrite Hty, Hx, Hy, Huse, Hagg, Hcol.
Qed.

Lemma top_n_has_no_effect_witness :
  render cars 0 (bar_of Sum) = render cars 0 (set_top_n 5 (bar_of Sum)).
Proof.
  apply (top_n_has_no_effect cars 0 (bar_of Sum) (set_top_n 5 (bar_of Sum))).
  repeat split.
Defined.

(** The whole "Generate All Charts" pass is insensitive to [top_n] too. *)
Lemma generate_ignores_top_n df cfgs1 cfgs2 :
  Forall2 differ_only_in_top_n cfgs1 cfgs2 →
  generate_all_charts df cfgs1 = generate_all_charts df cfgs2.
Proof.
  unfold generate_all_charts. generalize 0 as i.
  intros i Hall. revert i.
  induction Hall as [|c1 c2 l1 l2 Hc _ IH]; intros i; simpl; [done|].
  assert (render df i c1 = render df i c2) as ->; [|by rewrite IH].
  destruct c1, c2. unfold differ_only_in_top_n in Hc. simpl in Hc.
  by destruct Hc as (-> & -> & -> & -> & -> & ->).
Qed.

(** With [top_n] at its minimum of 5, all six categories are still plotted. *)
Example top_n_does_not_truncate :
  ∃ fig, render six_makes 0 (set_top_n 5 (plain Bar)) = Ok fig ∧
         length (plot_df fig) = 6.
Proof. eexists. split; by vm_compute. Qed.

(** The configuration appended by "Add Chart". *)
Example add_chart_default :
  add_chart cars [] = Ok [plain Bar].
Proof. reflexivity. Qed.

(** C8: a Pie or Doughnut chart is rendered from the frequency count of the
    category column whatever the aggregation settings are: changing them
    changes nothing, and every figure produced carries the value counts of
    the category column, with a hole of 0.45 for Doughnut and 0 for Pie.
    A figure is produced whenever the category column exists and is
    labelled neither "count" nor "value". *)
Theorem pie_chart_frame df i cfg :
  chart_type cfg = Pie ∨ chart_type cfg = Doughnut →
  (∀ u yv a, render df i (with_aggregation u yv a cfg) = render df i cfg) ∧
  (∀ fig, render df i cfg = Ok fig →
     ∃ xc, find_column (columns df) (x cfg) = Some xc ∧
       plot_df fig = counts_frame (value_counts (cells xc)) ∧
       (∀ k s, (k, s) ∈ plot_df fig ↔
          s = SInt (Z.of_nat (occurrences_of k (cells xc))) ∧
          0 < occurrences_of k (cells xc)) ∧
       (chart_type cfg = Doughnut → trace fig = PieTrace (45 # 100)) ∧
       (chart_type cfg = Pie → trace fig = PieTrace 0)) ∧
  (∀ xc, find_column (columns df) (x cfg) = Some xc →
     x cfg ≠ "count" → x cfg ≠ "value" →
     ∃ fig, render df i cfg = Ok fig ∧ NoDup (labels fig)).
Proof.
  intros Hty. split; [|split].
  - intros u yv a. unfold render, with_aggregation. simpl.
    by destruct Hty as [-> | ->].
  - intros fig. unfold render.
    destruct Hty as [Hty|Hty]; rewrite Hty;
      destruct (pie_frame df (x cfg)) as [frame|e] eqn:Hframe; try done;
      simpl; intros [= <-]; simpl;
      apply pie_frame_inv in Hframe as (xc & Hx & _ & ->);
      exists xc; (split; [done|]); (split; [done|]);
      (split; [apply frequency_frame_spec|]); by split.
  - intros xc Hx Hcount Hvalue. unfold render.
    destruct Hty as [Hty|Hty]; rewrite Hty, (pie_frame_found _ _ _ Hx Hcount);
      simpl; eexists; (split; [done|]); simpl;
      apply NoDup_cons; (split; [by rewrite list_elem_of_singleton|]);
      apply NoDup_singleton.
Qed.

Lemma pie_chart_frame_witness :
  ∃ fig, render cars 0 (plain Doughnut) = Ok fig ∧
    plot_df fig = [(KStr "A", SInt 2); (KStr "B", SInt 1)] ∧
    (∀ u yv a, render cars 0 (with_aggregation u yv a (plain Doughnut)) = Ok fig) ∧
    trace fig = PieTrace (45 # 100).
Proof.
  destruct (pie_chart_frame cars 0 (plain Doughnut)) as (Hagg & Hfig & Hok).
  - right. reflexivity.
  - destruct (Hok (StrCol [Some "A"; Some "A"; Some "B"])) as (fig & Hrender & _).
    + reflexivity.
    + discriminate.
    + discriminate.
    + exists fig. split; [exact Hrender|].
      destruct (Hfig fig Hrender) as (xc & Hx & Hframe & _ & Hhole & _).
      injection Hx as <-. split; [exact Hframe|].
      split; [|apply Hhole; reflexivity].
      intros u yv a. rewrite <- Hrender. apply Hagg.
Defined.

End ChartsFacts.

(** ** The summary reporter *)

Module SummaryFacts.
Import Pandas Summary PandasFacts.

Lemma row_before_total a b : row_before a b = false → row_before b a = true.
Proof.
  unfold row_before.
  destruct (decide (Column a = Column b)) as [E|Hne].
  - rewrite decide_True by done. rewrite Z.leb_le, Z.leb_gt. lia.
  - rewrite decide_False by done. intros Hab. apply string_leb_le.
    destruct (total String.le (Column a) (Column b)) as [Hle|Hle]; [|done].
    apply string_leb_le in Hle. congruence.
Qed.

Lemma row_before_order a b : row_before a b = true ↔ row_order a b.
Proof.
  unfold row_before, row_order.
  destruct (decide (Column a = Column b)) as [E|Hne].
  - rewrite Z.leb_le. intuition congruence.
  - rewrite string_leb_le. intuition congruence.
Qed.

Lemma row_order_trans a b c : row_order a b → row_order b c → row_order a c.
Proof.
  unfold row_order.
  intros [[Hab Hne]|[Eab Hcnt]] [[Hbc Hne']|[Ebc Hcnt']].
  - left. split; [by etrans|]. intros E. rewrite <- E in Hbc.
    apply Hne. by apply (anti_symm String.le).
  - left. by rewrite <- Ebc.
  - left. by rewrite Eab.
  - right. split; [congruence|lia].
Qed.

Lemma row_before_trans a b c :
  row_before a b = true → row_before b c = true → row_before a c = true.
Proof. rewrite !row_before_order. apply row_order_trans. Qed.

Lemma find_column_name cols name :
  name ∈ map fst cols → is_Some (find_column cols name).
Proof.
  induction cols as [|[n c] cols IH]; simpl; intros Hin.
  - by apply elem_of_nil in Hin.
  - destruct (decide (n = name)); [by eexists|].
    apply elem_of_cons in Hin as [?|?]; [congruence|auto].
Qed.

(** The loop over the categorical columns never fails: every label it
    looks up comes from the frame itself. *)
Lemma collect_rows_total df cols :
  cols ⊆ column_names df → ∃ rows, collect_rows df cols = Ok rows.
Proof.
  induction cols as [|col cols IH]; intros Hsub; simpl; [by eexists|].
  destruct (find_column_name (columns df) col) as [c Hc].
  { apply Hsub. by left. }
  destruct IH as [rows Hrows]. { intros ? ?. apply Hsub. by right. }
  unfold get. rewrite Hc. simpl. rewrite Hrows. simpl. by eexists.
Qed.

Lemma categorical_cols_names df : categorical_cols df ⊆ column_names df.
Proof.
  intros name. unfold categorical_cols, column_names.
  rewrite !list_elem_of_fmap. intros (p & -> & Hp).
  apply list_elem_of_filter in Hp as [_ Hp]. by exists p.
Qed.

Lemma find_column_NoDup cols name c :
  NoDup (map fst cols) → (name, c) ∈ cols → find_column cols name = Some c.
Proof.
  induction cols as [|[n c'] cols IH]; simpl; intros Hnd Hin.
  - by apply elem_of_nil in Hin.
  - apply NoDup_cons in Hnd as [Hnin Hnd].
    apply elem_of_cons in Hin as [[= -> ->]|Hin]; [by rewrite decide_True|].
    rewrite decide_False; [auto|]. intros ->. apply Hnin.
    apply list_elem_of_fmap. by exists (name, c).
Qed.

Lemma collect_rows_flat df l :
  (∀ p, p ∈ l → find_column (columns df) (fst p) = Some (snd p)) →
  collect_rows df (map fst l)
  = Ok (flat_map (λ p, column_rows (fst p) (snd p)) l).
Proof.
  induction l as [|[name c] l IH]; intros Hl; simpl; [done|].
  pose proof (Hl (name, c) ltac:(by left)) as Hc. simpl in Hc.
  unfold get. rewrite Hc. simpl.
  rewrite IH; [done|]. intros p Hp. apply Hl. by right.
Qed.

(** With distinct column labels the loop collects, column by column, the
    five most frequent values of every categorical column. *)
Lemma collect_rows_top_rows df :
  NoDup (column_names df) →
  collect_rows df (categorical_cols df) = Ok (top_rows df).
Proof.
  intros Hnd. unfold categorical_cols, top_rows. apply collect_rows_flat.
  intros [name c] Hp. apply list_elem_of_filter in Hp as [_ Hp].
  by apply find_column_NoDup.
Qed.

(** X12: on a frame with distinct labels and at least one frequency row,
    the table is made of the five most frequent values of every
    categorical column, ordered by Column ascending and Count descending. *)
Lemma freq_table_sorted df :
  NoDup (column_names df) → top_rows df ≠ [] →
  ∃ table, freq_table df = Ok table ∧ table ≡ₚ top_rows df ∧
           StronglySorted row_order table.
Proof.
  intros Hnd Hne. unfold freq_table. rewrite (collect_rows_top_rows _ Hnd).
  simpl. destruct (top_rows df) as [|r rows]; [done|]. eexists. split; [done|].
  split; [apply sort_by_perm|].
  eapply StronglySorted_weaken; [|apply sort_by_sorted].
  - intros a b. by rewrite row_before_order.
  - apply row_before_total.
  - apply row_before_trans.
Qed.

(** Without any frequency row the sort raises. *)
Lemma freq_table_no_rows df :
  NoDup (column_names df) → top_rows df = [] →
  freq_table df = Raise (KeyError "Column").
Proof.
  intros Hnd Hnil. unfold freq_table.
  by rewrite (collect_rows_top_rows _ Hnd), Hnil.
Qed.

(** Two columns X (counts 5, 3) and Y (counts 4, 2), given in the order Y,
    X: the table lists the X rows by descending count, then the Y rows. *)
Example freq_table_ordering :
  freq_table
    {| columns :=
         [("Y", StrCol [Some "u"; Some "v"; Some "u"; Some "u"; Some "v";
                        Some "u"; None; None]);
          ("X", StrCol [Some "q"; Some "p"; Some "p"; Some "q"; Some "p";
                        Some "p"; Some "q"; Some "p"])] |}
  = Ok [ {| Column := "X"; Category := Text "p"; Count := 5 |};
         {| Column := "X"; Category := Text "q"; Count := 3 |};
         {| Column := "Y"; Category := Text "u"; Count := 4 |};
         {| Column := "Y"; Category := Text "v"; Count := 2 |} ].
Proof. by vm_compute. Qed.

(** C9 (failing input): for a frame without categorical columns no
    frequency row is collected and the sort by "Column" raises; no table
    is shown. *)
Theorem freq_table_numeric_only :
  categorical_cols prices_only = [] ∧
  collect_rows prices_only (categorical_cols prices_only) = Ok [] ∧
  freq_table prices_only = Raise (KeyError "Column").
Proof. by vm_compute. Qed.

End SummaryFacts.

(** ** The query section *)

Module QueryFacts.
Import Pandas Charts Query PandasFacts ChartsFacts.

Lemma find_column_None cols name :
  find_column cols name = None ↔ name ∉ map fst cols.
Proof.
  induction cols as [|[n c] cols IH]; simpl.
  - split; [intros _; apply not_elem_of_nil|done].
  - rewrite not_elem_of_cons. destruct (decide (n = name)); [intuition congruence|].
    rewrite IH. intuition congruence.
Qed.

Lemma has_column_true df name :
  has_column df name = true ↔ is_Some (find_column (columns df) name).
Proof.
  unfold has_column, column_names. rewrite bool_decide_eq_true.
  rewrite <- not_eq_None_Some, find_column_None.
  destruct (decide (name ∈ map fst (columns df))); intuition congruence.
Qed.

Lemma has_column_false df name :
  has_column df name = false ↔ find_column (columns df) name = None.
Proof.
  unfold has_column, column_names.
  by rewrite bool_decide_eq_false, find_column_None.
Qed.

Lemma float_geb_refl a : float_geb a a = true.
Proof.
  unfold float_geb. destruct (is_nan a) eqn:Ha; [done|]. by apply float_leb_refl.
Qed.

Lemma float_geb_total a b : float_geb a b = false → float_geb b a = true.
Proof.
  unfold float_geb. destruct (is_nan b) eqn:Hb; [done|].
  destruct (is_nan a) eqn:Ha; [done|]. by apply float_leb_total.
Qed.

Lemma float_geb_trans a b c :
  float_geb a b = true → float_geb b c = true → float_geb a c = true.
Proof.
  unfold float_geb. destruct (is_nan c) eqn:Hc; [done|].
  destruct (is_nan b) eqn:Hb; [done|]. destruct (is_nan a) eqn:Ha; [done|].
  intros Hba Hcb. by eapply float_leb_trans.
Qed.

(** The order of the sort is the ranking of the means. *)
Lemma float_geb_at_least a b : float_geb a b = true ↔ at_least a b.
Proof.
  unfold float_geb, at_least. destruct (is_nan b); [by split; [left|]|].
  destruct (is_nan a); [|by split; [right|intros [?|[_ ?]]]].
  split; [done|]. by intros [?|[? _]].
Qed.

Lemma first_label_head {V} (a : key * V) l : first_label (take 1 (a :: l)) = Ok (fst a).
Proof. by destruct a. Qed.

(** A column with a non-missing cell has a most frequent value, and
    [value_counts] lists it first. *)
Lemma value_counts_head col k :
  Some k ∈ col →
  ∃ m n l, value_counts col = (m, n) :: l ∧ n = occurrences_of m col ∧ 0 < n ∧
           ∀ k', occurrences_of k' col ≤ n.
Proof.
  intros Hk.
  assert (0 < occurrences_of k col) as Hpos.
  { unfold occurrences_of.
    assert (Some k ∈ filter (λ c, c = Some k) col) as Hf
      by (by apply list_elem_of_filter).
    destruct (filter _ col); [by apply elem_of_nil in Hf|simpl; lia]. }
  assert ((k, occurrences_of k col) ∈ value_counts col) as Hin
    by (by apply value_counts_elem_of).
  pose proof (value_counts_sorted col) as Hsorted.
  destruct (value_counts col) as [|[m n] l] eqn:Hvc; [by apply elem_of_nil in Hin|].
  assert ((m, n) ∈ value_counts col) as Hm by (rewrite Hvc; by left).
  apply value_counts_elem_of in Hm as [Hn Hnpos].
  exists m, n, l. split; [done|]. split; [done|]. split; [done|].
  intros k'. destruct (decide (0 < occurrences_of k' col)) as [Hk'|]; [|lia].
  assert ((k', occurrences_of k' col) ∈ value_counts col) as Hin'
    by (by apply value_counts_elem_of).
  rewrite Hvc in Hin'. apply StronglySorted_inv in Hsorted as [_ Hall].
  apply elem_of_cons in Hin' as [[= -> <-]|Hin']; [done|].
  eapply Forall_forall in Hall; [|done]. done.
Qed.

(** The make reported by the first branch: one whose float64 mean price
    no other make exceeds, makes without any price ranking last. *)
Lemma best_by_price_spec df mk vals k :
  well_formed df →
  find_column (columns df) "make" = Some mk →
  find_column (columns df) "price" = Some (NumCol vals) →
  Some k ∈ cells mk →
  ∃ m, best_by_price df = Ok (Success (best_message m)) ∧
    Some m ∈ cells mk ∧
    ∀ k', Some k' ∈ cells mk →
      at_least (mean_price m (cells mk) vals) (mean_price k' (cells mk) vals).
Proof.
  intros Hwf Hmk Hpr Hk. unfold best_by_price.
  rewrite (get_found _ _ _ Hmk), (get_found _ _ _ Hpr).
  cbn [mbind result_bind numeric_values].
  pose proof (column_lengths _ _ _ _ _ Hwf Hmk Hpr) as Hlen.
  assert (labels_only (cells mk)) as Hkeys by (intros ?; apply cells_labels).
  set (means := map (λ p, (fst p, agg_mean (snd p)))
                    (groupby_numeric (cells mk) vals)).
  assert (∀ k', Some k' ∈ cells mk →
            (k', mean_price k' (cells mk) vals) ∈ means) as Hmeans.
  { intros k' Hk'. apply list_elem_of_fmap. eexists (k', _). split; [done|].
    by apply groupby_numeric_elem_of. }
  pose proof (sort_by_perm higher_mean means) as Hperm.
  destruct (sort_by higher_mean means) as [|[m s] l] eqn:Hsort.
  { apply Permutation_nil in Hperm. specialize (Hmeans k Hk).
    rewrite Hperm in Hmeans. by apply elem_of_nil in Hmeans. }
  rewrite first_label_head. cbn [mbind result_bind fst]. exists m. split; [done|].
  assert ((m, s) ∈ means) as Hm by (rewrite <- Hperm; by left).
  apply list_elem_of_fmap in Hm as ([m' group] & [= -> ->] & Hm).
  apply (groupby_numeric_elem_of _ _ _ _ Hkeys Hlen) in Hm as [Hm ->].
  split; [done|].
  intros k' Hk'. apply float_geb_at_least.
  apply (sort_by_head higher_mean
           (λ a b, float_geb_total (snd a) (snd b))
           (λ a b c, float_geb_trans (snd a) (snd b) (snd c))
           _ _ _ (λ a, float_geb_refl (snd a)) Hsort
           (k', mean_price k' (cells mk) vals)).
  by apply Hmeans.
Qed.

(** The make reported by the second branch: one that occurs most often. *)
Lemma most_cars_spec df mk k :
  find_column (columns df) "make" = Some mk →
  Some k ∈ cells mk →
  ∃ m, most_cars df = Ok (Success (most_message m)) ∧
    0 < occurrences_of m (cells mk) ∧
    ∀ k', occurrences_of k' (cells mk) ≤ occurrences_of m (cells mk).
Proof.
  intros Hmk Hk. unfold most_cars. rewrite (get_found _ _ _ Hmk).
  cbn [mbind result_bind].
  destruct (value_counts_head _ _ Hk) as (m & n & l & -> & -> & Hpos & Hmax).
  rewrite first_label_head. by exists m.
Qed.

(** The three queries of the specification's examples, and a make column
    of whole numbers with a blank: its labels are float64 and print with
    a decimal point. *)
Example query_examples :
  query_section two_makes "Which make has the highest average price?"
  = Ok (Success [Text "🏆 Best brand by average price: **A**"]) ∧
  query_section three_cars "most cars"
  = Ok (Success [Text "🚗 Brand with most cars: **A**"]) ∧
  query_section three_cars "what is the weather" = Ok fallback ∧
  query_section numbered_makes "most cars"
  = Ok (Success [Text "🚗 Brand with most cars: **1.0**"]).
Proof. by vm_compute. Qed.

(** C6 (as stated, it fails): an empty query holds none of the keywords,
    yet the section shows nothing for it, not the fallback message.  In the
    first branch the means are float64: the prices 9007199254740992 of A
    and 9007199254740993 of B have the same mean there, and A is reported
    though the price of B is higher.  The first branch raises when the
    frame has no "price" column or a "price" column of text, and both
    branches raise when every make is blank. *)
Lemma query_dispatch_gaps :
  (asks_highest_price two_makes (lower "") = false ∧
   asks_most_cars two_makes (lower "") = false ∧
   query_section two_makes "" = Ok Nothing ∧
   query_section two_makes "" ≠ Ok fallback) ∧
  (query_section close_prices "highest price"
   = Ok (Success (best_message (KStr "A"))) ∧
   select (KStr "A") (cells (StrCol [Some "A"; Some "B"]))
     (Int64 [9007199254740992; 9007199254740993]%Z)
   = Int64 [9007199254740992]%Z ∧
   select (KStr "B") (cells (StrCol [Some "A"; Some "B"]))
     (Int64 [9007199254740992; 9007199254740993]%Z)
   = Int64 [9007199254740993]%Z) ∧
  query_section three_cars "highest price" = Raise (KeyError "price") ∧
  query_section worded_prices "highest price" = Raise TypeError ∧
  query_section blank_makes "highest price" = Raise IndexError ∧
  query_section blank_makes "most cars" = Raise IndexError.
Proof. by vm_compute. Qed.

(** C6 (amended): for every non-empty query the section lower-cases it and
    takes exactly one of three cases.  With "highest", "price" and a "make"
    column it reports a make whose float64 mean of "price" no other make
    exceeds (given a numeric "price" column and a non-missing make; makes
    without any price rank last).  Else, with "most", "cars" and a "make"
    column, it reports a most frequent value of "make" (given a non-missing
    make).  Otherwise it returns the informational fallback message. *)
Theorem query_dispatch df query :
  query ≠ "" →
  (asks_highest_price df (lower query) = true →
   ∀ mk vals k,
     well_formed df →
     find_column (columns df) "make" = Some mk →
     find_column (columns df) "price" = Some (NumCol vals) →
     Some k ∈ cells mk →
     ∃ m, query_section df query = Ok (Success (best_message m)) ∧
       Some m ∈ cells mk ∧
       ∀ k', Some k' ∈ cells mk →
         at_least (mean_price m (cells mk) vals)
                  (mean_price k' (cells mk) vals)) ∧
  (asks_highest_price df (lower query) = false →
   asks_most_cars df (lower query) = true →
   ∀ mk k,
     find_column (columns df) "make" = Some mk →
     Some k ∈ cells mk →
     ∃ m, query_section df query = Ok (Success (most_message m)) ∧
       0 < occurrences_of m (cells mk) ∧
       ∀ k', occurrences_of k' (cells mk) ≤ occurrences_of m (cells mk)) ∧
  (asks_highest_price df (lower query) = false →
   asks_most_cars df (lower query) = false →
   query_section df query = Ok fallback).
Proof.
  intros Hne. unfold query_section. rewrite decide_False by done. cbn zeta.
  split; [|split].
  - intros -> mk vals k Hwf Hmk Hpr Hk. by eapply best_by_price_spec.
  - intros -> -> mk k Hmk Hk. by eapply most_cars_spec.
  - by intros -> ->.
Qed.

Lemma query_dispatch_witness :
  ∃ m, query_section two_makes "Which make has the highest average price?"
       = Ok (Success (best_message m)) ∧
    Some m ∈ [Some (KStr "A"); Some (KStr "B")] ∧
    ∀ k', Some k' ∈ [Some (KStr "A"); Some (KStr "B")] →
      at_least
        (mean_price m [Some (KStr "A"); Some (KStr "B")] (Int64 [100; 50]%Z))
        (mean_price k' [Some (KStr "A"); Some (KStr "B")] (Int64 [100; 50]%Z)).
Proof.
  assert ("Which make has the highest average price?" ≠ "") as Hne
    by discriminate.
  apply (proj1 (query_dispatch two_makes
                  "Which make has the highest average price?" Hne)
           eq_refl (StrCol [Some "A"; Some "B"]) (Int64 [100; 50]%Z)
           (KStr "A")).
  - repeat constructor.
  - reflexivity.
  - reflexivity.
  - left.
Defined.

(** C7 (as stated, it fails): one query can satisfy both keyword
    conditions, and the two branches then give different answers. *)
Lemma branch_conditions_overlap :
  asks_highest_price fleet (lower "Highest price, most cars?") = true ∧
  asks_most_cars fleet (lower "Highest price, most cars?") = true ∧
  best_by_price fleet = Ok (Success (best_message (KStr "B"))) ∧
  most_cars fleet = Ok (Success (most_message (KStr "A"))) ∧
  best_by_price fleet ≠ most_cars fleet.
Proof. by vm_compute. Qed.

(** C7 (amended): the two keyword conditions may hold together; the
    branches are tried in order, so the highest/price branch is taken
    whenever its condition holds and the most/cars branch only when the
    first condition fails. *)
Theorem first_matching_branch_wins df query :
  query ≠ "" →
  (asks_highest_price df (lower query) = true →
   query_section df query = best_by_price df) ∧
  (asks_highest_price df (lower query) = false →
   asks_most_cars df (lower query) = true →
   query_section df query = most_cars df).
Proof.
  intros Hne. unfold query_section. rewrite decide_False by done. cbn zeta.
  split; [by intros ->|by intros -> ->].
Qed.

Lemma first_matching_branch_wins_witness :
  query_section fleet "Highest price, most cars?" = best_by_price fleet ∧
  query_section three_cars "Most cars?" = most_cars three_cars.
Proof.
  split.
  - apply (first_matching_branch_wins fleet "Highest price, most cars?");
      [discriminate|reflexivity].
  - apply (first_matching_branch_wins three_cars "Most cars?");
      [discriminate|reflexivity|reflexivity].
Defined.

(** C10: the guard of the first branch looks at the keywords and at the
    "make" column only; on a frame with a "make" column and no "price"
    column a query with "highest" and "price" enters the branch, whose
    group-by raises a KeyError for "price" instead of reaching the
    fallback. *)
Theorem highest_price_needs_price_column df query :
  query ≠ "" →
  contains "highest" (lower query) = true →
  contains "price" (lower query) = true →
  has_column df "make" = true →
  has_column df "price" = false →
  asks_highest_price df (lower query) = true ∧
  query_section df query = Raise (KeyError "price") ∧
  query_section df query ≠ Ok fallback.
Proof.
  intros Hne Hhi Hpr Hmake Hprice.
  assert (asks_highest_price df (lower query) = true) as Hguard.
  { unfold asks_highest_price. by rewrite Hhi, Hpr, Hmake. }
  split; [done|].
  assert (query_section df query = Raise (KeyError "price")) as ->; [|done].
  unfold query_section. rewrite decide_False by done. cbn zeta. rewrite Hguard.
  apply has_column_true in Hmake as [mk Hmk]. apply has_column_false in Hprice.
  unfold best_by_price, get. by rewrite Hmk, Hprice.
Qed.

Lemma highest_price_needs_price_column_witness :
  asks_highest_price three_cars (lower "highest price") = true ∧
  query_section three_cars "highest price" = Raise (KeyError "price") ∧
  query_section three_cars "highest price" ≠ Ok fallback.
Proof.
  apply (highest_price_needs_price_column three_cars "highest price").
  - discriminate.
  - reflexivity.
  - reflexivity.
  - reflexivity.
  - reflexivity.
Defined.

End QueryFacts.

(** ** More on the column-name helper *)

Module RenamingFacts.
Import Ingestion IngestionFacts.

Lemma occurrences_zero c l : c ∉ l → occurrences c l = 0.
Proof.
  intros Hnin. unfold occurrences.
  destruct (filter (λ c', c' = c) l) as [|c' l'] eqn:Hf; [done|].
  assert (c' ∈ filter (λ c', c' = c) l) as Hin by (rewrite Hf; by left).
  apply list_elem_of_filter in Hin as [-> Hin]. done.
Qed.

Lemma rename_repeats_distinct columns : NoDup columns → rename_repeats columns = columns.
Proof.
  intros Hnd. apply list_eq. intros i. unfold rename_repeats.
  rewrite list_lookup_imap. destruct (columns !! i) as [c|] eqn:Hi; [|done].
  simpl. f_equal. rewrite occurrences_zero; [done|].
  intros Hin. apply list_elem_of_lookup in Hin as [j Hj].
  apply lookup_take_Some in Hj as [Hj Hlt].
  rewrite NoDup_alt in Hnd. specialize (Hnd _ _ _ Hi Hj). lia.
Qed.

(** X1: the helper returns as many names as it is given, so the result can
    always be assigned back to [df.columns]. *)
Theorem make_columns_unique_length columns :
  length (make_columns_unique columns) = length columns.
Proof.
  unfold make_columns_unique.
  rewrite (unique_fold columns [] ∅ [] seen_tracks_nil). simpl.
  by rewrite length_imap.
Qed.

(** X2: names that are already pairwise distinct are returned unchanged. *)
Theorem make_columns_unique_distinct columns :
  NoDup columns → make_columns_unique columns = columns.
Proof.
  intros Hnd. unfold make_columns_unique.
  rewrite (unique_fold columns [] ∅ [] seen_tracks_nil). simpl.
  by apply rename_repeats_distinct.
Qed.

Lemma make_columns_unique_distinct_witness :
  make_columns_unique ["make"; "price"; "year"] = ["make"; "price"; "year"].
Proof.
  apply (make_columns_unique_distinct ["make"; "price"; "year"]).
  apply (bool_decide_unpack _). vm_compute. exact I.
Defined.

Lemma make_columns_unique_NoDup_witness :
  NoDup (make_columns_unique ["a"; "a"; "b"]).
Proof.
  apply (make_columns_unique_NoDup ["a"; "a"; "b"]).
  intros c c' n Hc Hc' E. unfold suffixed in E.
  repeat (apply elem_of_cons in Hc as [->|Hc]);
    try (by apply elem_of_nil in Hc);
    repeat (apply elem_of_cons in Hc' as [->|Hc']);
    try (by apply elem_of_nil in Hc');
    rewrite ?append_cons, ?append_nil in E; discriminate E.
Defined.

End RenamingFacts.

(** ** The labels of the uploaded frame *)

Module UploadFacts.
Import Ingestion Pandas Upload IngestionFacts RenamingFacts.






End UploadFacts.

(** ** Reading the upload *)

Module ReadingFacts.
Import Reading.

Lemma endswith_cons a s suffix :
  endswith (String a s) suffix = bool_decide (String a s = suffix) || endswith s suffix.
Proof. reflexivity. Qed.

(** [endswith] is the suffix test: some prefix completes [suffix] to [s]. *)
Lemma endswith_suffix s suffix :
  endswith s suffix = true ↔ ∃ pre, s = pre +:+ suffix.
Proof.
  induction s as [|a s IH].
  - simpl. rewrite orb_false_r, bool_decide_eq_true. split.
    + intros <-. by exists "".
    + intros ([|b pre] & E); [done|discriminate E].
  - rewrite endswith_cons, orb_true_iff, bool_decide_eq_true, IH. split.
    + intros [<-|[pre ->]]; [by exists ""|by exists (String a pre)].
    + intros ([|b pre] & E); [by left|].
      right. exists pre. by injection E.
Qed.

Lemma xlsx_not_xls name : endswith name ".xlsx" = true → endswith name ".xls" = false.
Proof.
  induction name as [|a s IH]; [done|].
  rewrite !endswith_cons, orb_true_iff, orb_false_iff, bool_decide_eq_true,
    bool_decide_eq_false.
  intros [E|Hs].
  - injection E as -> ->. by vm_compute.
  - split; [|auto]. intros E. injection E as -> ->. by vm_compute in Hs.
Qed.

(** X4: a name ending in ".xlsx" is read with openpyxl and a name ending in
    ".xls" with xlrd, whatever the order of the two tests, since no name
    ends in both; every other name is read as CSV. *)
Theorem choose_reader_by_extension name :
  (choose_reader name = ReadExcel "openpyxl" ↔ endswith name ".xlsx" = true) ∧
  (choose_reader name = ReadExcel "xlrd" ↔ endswith name ".xls" = true) ∧
  (choose_reader name = ReadCsv ↔
     endswith name ".xlsx" = false ∧ endswith name ".xls" = false).
Proof.
  unfold choose_reader. pose proof (xlsx_not_xls name) as Hex.
  destruct (endswith name ".xlsx") eqn:Hxlsx.
  - rewrite (Hex eq_refl). repeat split; try done. by intros [? _].
  - destruct (endswith name ".xls") eqn:Hxls; repeat split; try done.
    by intros [_ ?].
Qed.

(** Extensions are compared as written: an upper-case one falls to CSV. *)
Example choose_reader_examples :
  choose_reader "cars.xlsx" = ReadExcel "openpyxl" ∧
  choose_reader "cars.xls" = ReadExcel "xlrd" ∧
  choose_reader "cars.csv" = ReadCsv ∧
  choose_reader "CARS.XLSX" = ReadCsv.
Proof. by vm_compute. Qed.

End ReadingFacts.

(** ** The dataset overview *)

Module ProfilerFacts.
Import Pandas Profiler.

Lemma missing_non_missing col : missing_in col + non_missing col = length col.
Proof.
  unfold missing_in, non_missing. induction col as [|c col IH]; [done|].
  rewrite !filter_cons. destruct c; repeat case_decide; simpl; try done; lia.
Qed.

Lemma cells_add_up cols n :
  Forall (λ p : string * column, length (cells (snd p)) = n) cols →
  sum_list (map (λ p, missing_in (cells (snd p))) cols)
  + sum_list (map (λ p, non_missing (cells (snd p))) cols)
  = n * length cols.
Proof.
  induction 1 as [|p cols Hp _ IH]; simpl; [lia|].
  pose proof (missing_non_missing (cells (snd p))). lia.
Qed.

(** X5: on a frame whose columns have equal length, the Missing Values
    tile and the non-missing cells of all columns add up to Rows times
    Columns; the tile never exceeds that product. *)
Theorem missing_values_complement df :
  well_formed df →
  shown_missing (overview df)
  + sum_list (map (λ p, non_missing (cells (snd p))) (columns df))
  = shown_rows (overview df) * shown_columns (overview df) ∧
  shown_missing (overview df)
  ≤ shown_rows (overview df) * shown_columns (overview df).
Proof.
  intros Hwf. pose proof (cells_add_up _ _ Hwf) as Hsum.
  unfold overview, missing_values. simpl. lia.
Qed.

Lemma missing_values_complement_witness :
  shown_missing (overview ten_rows)
  + sum_list (map (λ p, non_missing (cells (snd p))) (columns ten_rows))
  = shown_rows (overview ten_rows) * shown_columns (overview ten_rows) ∧
  shown_missing (overview ten_rows)
  ≤ shown_rows (overview ten_rows) * shown_columns (overview ten_rows).
Proof.
  apply (missing_values_complement ten_rows). repeat constructor.
Defined.

Lemma distinct_count_same (l1 l2 : list row) :
  (∀ r, r ∈ l1 ↔ r ∈ l2) → distinct_count l1 = distinct_count l2.
Proof.
  intros Hsame. unfold distinct_count. apply Permutation_length.
  apply NoDup_Permutation; [apply NoDup_remove_dups..|].
  intros r. by rewrite !elem_of_remove_dups.
Qed.

Lemma distinct_count_cons_new r (l : list row) :
  r ∉ l → distinct_count (r :: l) = S (distinct_count l).
Proof.
  intros Hr. unfold distinct_count. simpl.
  by destruct (decide_rel (∈) r l).
Qed.

Lemma duplicated_from_count rs : ∀ seen,
  marked (duplicated_from seen rs) + distinct_count (seen ++ rs)
  = length rs + distinct_count seen.
Proof.
  unfold marked. induction rs as [|r rs IH]; intros seen; simpl.
  - by rewrite app_nil_r.
  - destruct (decide (r ∈ seen)) as [Hin|Hnin].
    + rewrite filter_cons_True by done. simpl.
      rewrite (distinct_count_same (seen ++ r :: rs) (seen ++ rs)).
      * specialize (IH seen). lia.
      * intros r'. rewrite !elem_of_app, elem_of_cons. split; [|tauto].
        intros [?|[->|?]]; auto.
    + rewrite filter_cons_False by done.
      rewrite (distinct_count_same (seen ++ r :: rs) ((r :: seen) ++ rs)).
      * specialize (IH (r :: seen)).
        rewrite (distinct_count_cons_new _ _ Hnin) in IH. lia.
      * intros r'. simpl. rewrite ?elem_of_cons, ?elem_of_app, ?elem_of_cons. tauto.
Qed.

Lemma distinct_count_le (l : list row) : distinct_count l ≤ length l.
Proof.
  unfold distinct_count. induction l as [|r l IH]; simpl; [done|].
  destruct (decide_rel (∈) r l); simpl; lia.
Qed.

Lemma distinct_count_full (l : list row) : distinct_count l = length l ↔ NoDup l.
Proof.
  unfold distinct_count. induction l as [|r l IH]; simpl.
  - split; [constructor|done].
  - pose proof (distinct_count_le l) as Hle. unfold distinct_count in Hle.
    rewrite NoDup_cons. destruct (decide_rel (∈) r l); simpl.
    + split; [lia|tauto].
    + rewrite <- IH. split; [intros [=]; done|intros [_ ->]; done].
Qed.

Lemma rows_length df : length (rows df) = nrows df.
Proof. unfold rows. by rewrite length_map, length_seq. Qed.

(** X6: the Duplicate Rows tile and the number of distinct rows add up to
    Rows; the tile shows 0 exactly when the rows are pairwise distinct. *)
Theorem duplicate_rows_complement df :
  shown_duplicates (overview df) + length (remove_dups (rows df))
  = shown_rows (overview df) ∧
  (shown_duplicates (overview df) = 0 ↔ NoDup (rows df)).
Proof.
  pose proof (duplicated_from_count (rows df) []) as Hcount.
  pose proof (distinct_count_full (rows df)) as Hfull.
  pose proof (distinct_count_le (rows df)) as Hle.
  rewrite rows_length in Hcount, Hfull, Hle.
  unfold overview, duplicate_rows, duplicated. simpl in *.
  unfold marked, distinct_count in *. simpl in Hcount.
  split; [lia|]. rewrite <- Hfull. lia.
Qed.

(** X7: the numeric and the categorical labels together are the labels of
    the frame, each column classified once. *)
Theorem column_types_partition df :
  numeric_cols df ++ categorical_cols df ≡ₚ column_names df ∧
  length (numeric_cols df) + length (categorical_cols df)
  = shown_columns (overview df).
Proof.
  assert (numeric_cols df ++ categorical_cols df ≡ₚ column_names df) as Hperm.
  { unfold numeric_cols, categorical_cols, column_names.
    rewrite <- map_app. apply Permutation_map.
    induction (columns df) as [|[name c] cols IH]; [done|].
    rewrite !filter_cons. destruct c; simpl; repeat case_decide; try done; simpl.
    - by constructor.
    - rewrite <- Permutation_middle. by constructor. }
  split; [done|]. rewrite <- length_app, Hperm.
  unfold column_names. by rewrite length_map.
Qed.

(** The profiler example of the specification. *)
Example overview_ten_rows :
  overview ten_rows
  = {| shown_rows := 10; shown_columns := 2; shown_missing := 3;
       shown_duplicates := 1 |}.
Proof. by vm_compute. Qed.

End ProfilerFacts.

(** ** The configuration store and the render pass *)

Module StoreFacts.
Import Pandas Charts PandasFacts ChartsFacts SummaryFacts.

Lemma numeric_cols_found df name :
  NoDup (column_names df) → name ∈ numeric_cols df →
  ∃ vals, find_column (columns df) name = Some (NumCol vals).
Proof.
  intros Hnd Hin. unfold numeric_cols in Hin.
  apply list_elem_of_fmap in Hin as ([name' c] & -> & Hin).
  apply list_elem_of_filter in Hin as [Hnum Hin]. simpl in *.
  destruct c as [vals|vals]; [|done]. exists vals.
  by apply find_column_NoDup.
Qed.

Lemma render_title df i cfg fig :
  render df i cfg = Ok fig → title fig = chart_title i ∧ height fig = 500%Z.
Proof.
  unfold render.
  destruct (chart_type cfg);
    [destruct (match aggregated_column cfg with
               | Some yname => aggregated_frame df (x cfg) yname (agg cfg)
               | None => frequency_frame df (x cfg)
               end)..
    |destruct (pie_frame df (x cfg))
    |destruct (pie_frame df (x cfg))];
    simpl; intros [= <-]; done.
Qed.

Lemma configured_renders df i w cfg :
  NoDup (column_names df) → offered df w → clash_free (card_x w) →
  ∃ fig, render df i (configure w cfg) = Ok fig.
Proof.
  intros Hnd [Hx Hy] [Hvalue Hcount].
  destruct (find_column_name (columns df) (card_x w) Hx) as [xc Hxc].
  assert (∃ frame,
    match aggregated_column (configure w cfg) with
    | Some yname =>
        aggregated_frame df (x (configure w cfg)) yname (agg (configure w cfg))
    | None => frequency_frame df (x (configure w cfg))
    end = Ok frame) as [frame Hframe].
  { destruct (aggregated_column (configure w cfg)) as [yname|] eqn:Hagg.
    - assert (card_y w = Some yname) as Hcy.
      { revert Hagg. unfold aggregated_column, configure. simpl.
        destruct (card_chart_type w), (card_use_agg w); simpl; try done;
          destruct (card_y w) as [name|]; try done;
          case_decide; try done; by intros [= ->]. }
      destruct (numeric_cols_found df yname Hnd (Hy _ Hcy)) as [vals Hvals].
      eexists. by apply aggregated_frame_found.
    - eexists. by apply frequency_frame_found. }
  destruct (card_chart_type w) eqn:Hty.
  - destruct (render_bar_line df i (configure w cfg) frame) as (fig & Hfig & _);
      [left; simpl; by rewrite Hty|done|by exists fig].
  - destruct (render_bar_line df i (configure w cfg) frame) as (fig & Hfig & _);
      [right; simpl; by rewrite Hty|done|by exists fig].
  - unfold render. simpl. rewrite Hty, (pie_frame_found _ _ _ Hxc Hcount).
    by eexists.
  - unfold render. simpl. rewrite Hty, (pie_frame_found _ _ _ Hxc Hcount).
    by eexists.
Qed.

Lemma generate_from_all df cfgs : ∀ i,
  Forall (λ cfg, ∀ j, ∃ fig, render df j cfg = Ok fig) cfgs →
  ∃ figs, generate_from df i cfgs = (figs, None) ∧ length figs = length cfgs.
Proof.
  induction cfgs as [|cfg cfgs IH]; intros i Hall; simpl; [by eexists|].
  apply Forall_cons in Hall as [Hcfg Hall].
  destruct (Hcfg i) as [fig ->]. destruct (IH (S i) Hall) as (figs & -> & Hlen).
  eexists. split; [done|]. simpl. by rewrite Hlen.
Qed.

Lemma generate_from_prefix df cfgs : ∀ i,
  (∀ j fig, fst (generate_from df i cfgs) !! j = Some fig →
     ∃ cfg, cfgs !! j = Some cfg ∧ render df (i + j) cfg = Ok fig) ∧
  match snd (generate_from df i cfgs) with
  | None => length (fst (generate_from df i cfgs)) = length cfgs
  | Some e =>
      ∃ cfg, cfgs !! length (fst (generate_from df i cfgs)) = Some cfg ∧
             render df (i + length (fst (generate_from df i cfgs))) cfg = Raise e
  end.
Proof.
  induction cfgs as [|cfg cfgs IH]; intros i; simpl; [by split|].
  destruct (render df i cfg) as [fig|e] eqn:Hr; simpl.
  - destruct (IH (S i)) as [Hfigs Hend].
    destruct (generate_from df (S i) cfgs) as [figs e]. simpl in *. split.
    + intros [|j] fig'; simpl.
      * intros [= <-]. exists cfg. by rewrite Nat.add_0_r.
      * intros Hj. destruct (Hfigs j fig' Hj) as (cfg' & Hcfg' & Hr').
        exists cfg'. split; [done|]. by rewrite Nat.add_succ_r.
    + destruct e as [e|]; [|by f_equal].
      destruct Hend as (cfg' & Hcfg' & Hr'). exists cfg'. split; [done|].
      by rewrite Nat.add_succ_r.
  - split; [done|]. exists cfg. by rewrite Nat.add_0_r.
Qed.

(** X8: "Add Chart" raises on a frame without columns; on any other frame
    it appends one configuration, for a bar chart of the first column.
    Rendering that configuration gives the value counts of the first
    column, unless that column is labelled "value": then it raises. *)
Theorem added_chart_renders df store :
  (columns df = [] → add_chart df store = Raise IndexError) ∧
  (∀ name c rest, columns df = (name, c) :: rest →
     ∃ cfg, add_chart df store = Ok (store ++ [cfg]) ∧
       chart_type cfg = Bar ∧ x cfg = name ∧
       (name = "value" → render df (length store) cfg = Raise ValueError) ∧
       (name ≠ "value" →
        ∃ fig, render df (length store) cfg = Ok fig ∧
          trace fig = BarTrace ∧
          plot_df fig = counts_frame (value_counts (cells c)))).
Proof.
  unfold add_chart, column_names. split.
  - by intros ->.
  - intros name c rest Hcols. rewrite Hcols. simpl. eexists.
    split; [done|]. split; [done|]. split; [done|].
    unfold render, aggregated_column, frequency_frame, get. simpl.
    rewrite Hcols. simpl. rewrite decide_True by done. simpl. split.
    + intros ->. by rewrite reset_index_clash.
    + intros Hne. rewrite reset_index_ok by done. by eexists.
Qed.

Lemma added_chart_renders_witness :
  ∃ cfg, add_chart cars [] = Ok [cfg] ∧
    chart_type cfg = Bar ∧ x cfg = "make" ∧
    ("make" = "value" → render cars 0 cfg = Raise ValueError) ∧
    ("make" ≠ "value" →
     ∃ fig, render cars 0 cfg = Ok fig ∧
       trace fig = BarTrace ∧
       plot_df fig = counts_frame (value_counts [Some (KStr "A"); Some (KStr "A"); Some (KStr "B")])).
Proof.
  apply (proj2 (added_chart_renders cars []) "make"
           (StrCol [Some "A"; Some "A"; Some "B"])
           [("price", NumCol (Int64 [10; 20; 30]%Z))]).
  reflexivity.
Defined.

(** X9: whatever the chart type and the aggregation settings, a category
    label that is not a column of the frame makes the render raise a
    KeyError for that label; so does, for an aggregated Bar or Line
    chart, a value label that is not a column. *)
Theorem render_missing_column df i cfg :
  (find_column (columns df) (x cfg) = None →
   render df i cfg = Raise (KeyError (x cfg))) ∧
  (∀ xc yname,
     chart_type cfg = Bar ∨ chart_type cfg = Line →
     aggregated_column cfg = Some yname →
     find_column (columns df) (x cfg) = Some xc →
     find_column (columns df) yname = None →
     render df i cfg = Raise (KeyError yname)).
Proof.
  split.
  - intros Hx. unfold render, aggregated_frame, frequency_frame, pie_frame, get.
    rewrite Hx. by destruct (chart_type cfg), (aggregated_column cfg).
  - intros xc yname Hty Hagg Hx Hy.
    unfold render, aggregated_frame, get. rewrite Hagg, Hx, Hy.
    by destruct Hty as [-> | ->].
Qed.

Lemma render_missing_column_witness :
  render cars 0 (with_aggregation true (Some "price") (Some Sum)
                   {| chart_type := Pie; x := "model"; y := None;
                      use_agg := false; agg := None; top_n := 15;
                      color_scheme := Plotly |})
  = Raise (KeyError "model") ∧
  render three_rows_no_price 0 (bar_of Mean) = Raise (KeyError "price").
Proof.
  split.
  - apply (proj1 (render_missing_column cars 0
             (with_aggregation true (Some "price") (Some Sum)
                {| chart_type := Pie; x := "model"; y := None;
                   use_agg := false; agg := None; top_n := 15;
                   color_scheme := Plotly |}))).
    reflexivity.
  - apply (proj2 (render_missing_column three_rows_no_price 0 (bar_of Mean))
             (StrCol [Some "A"; Some "A"; Some "B"]) "price").
    + left. reflexivity.
    + reflexivity.
    + reflexivity.
    + reflexivity.
Defined.

(** X10: on a frame with distinct labels, after a pass of the cards in
    which every selectbox returned one of the labels it offers and no
    category label is "value" or "count", "Generate All Charts" paints one
    figure per configuration and raises nothing. *)
Theorem configured_store_renders df ws store :
  NoDup (column_names df) →
  Forall (offered df) ws →
  Forall (λ w, clash_free (card_x w)) ws →
  length ws = length store →
  ∃ figs, generate_all_charts df (configure_all ws store) = (figs, None) ∧
          length figs = length store.
Proof.
  intros Hnd Hws Hfree Hlen. unfold generate_all_charts, configure_all.
  destruct (generate_from_all df (zip_with configure ws store) 0)
    as (figs & Hfigs & Hlenf).
  - clear Hlen. revert store Hfree.
    induction Hws as [|w ws Hw _ IH]; intros [|cfg store] Hfree; simpl;
      try by constructor.
    apply Forall_cons in Hfree as [Hfw Hfree].
    constructor; [|by apply IH]. intros j. by apply configured_renders.
  - exists figs. split; [done|].
    rewrite Hlenf, length_zip_with. lia.
Qed.

Lemma configured_store_renders_witness :
  ∃ figs, generate_all_charts cars (configure_all [mean_line] [plain Bar])
          = (figs, None) ∧
          length figs = 1.
Proof.
  apply (configured_store_renders cars [mean_line] [plain Bar]).
  - apply (bool_decide_unpack _). vm_compute. exact I.
  - constructor; [|constructor]. split.
    + apply (bool_decide_unpack _). vm_compute. exact I.
    + intros name [= <-]. apply (bool_decide_unpack _). vm_compute. exact I.
  - constructor; [|constructor]. split; discriminate.
  - reflexivity.
Defined.

(** X11: "Generate All Charts" paints the charts in store order and stops
    at the first configuration whose render raises: the figures painted
    are the renders of a prefix of the store, the [j]-th titled with its
    1-based position, and either all configurations were painted or the
    next one is the one that raised. *)
Theorem generate_stops_at_first_error df cfgs :
  (∀ j fig, fst (generate_all_charts df cfgs) !! j = Some fig →
     ∃ cfg, cfgs !! j = Some cfg ∧ render df j cfg = Ok fig ∧
            title fig = "Chart " +:+ pretty (j + 1) ∧ height fig = 500%Z) ∧
  match snd (generate_all_charts df cfgs) with
  | None => length (fst (generate_all_charts df cfgs)) = length cfgs
  | Some e =>
      ∃ cfg, cfgs !! length (fst (generate_all_charts df cfgs)) = Some cfg ∧
             render df (length (fst (generate_all_charts df cfgs))) cfg = Raise e
  end.
Proof.
  unfold generate_all_charts.
  destruct (generate_from_prefix df cfgs 0) as [Hfigs Hend]. split.
  - intros j fig Hj. destruct (Hfigs j fig Hj) as (cfg & Hcfg & Hr).
    simpl in Hr. exists cfg. split; [done|]. split; [done|].
    by apply render_title in Hr.
  - done.
Qed.

End StoreFacts.

(** ** More on the summary reporter *)

Module ReportFacts.
Import Pandas Profiler Summary PandasFacts SummaryFacts.

Lemma occurrences_of_pos k col : 0 < occurrences_of k col ↔ Some k ∈ col.
Proof.
  unfold occurrences_of. split.
  - intros Hpos. destruct (filter _ col) as [|c l] eqn:Hf; [simpl in Hpos; lia|].
    assert (c ∈ filter (λ c, c = Some k) col) as Hin by (rewrite Hf; by left).
    by apply list_elem_of_filter in Hin as [-> Hin].
  - intros Hin.
    assert (Some k ∈ filter (λ c, c = Some k) col) as Hf
      by (by apply list_elem_of_filter).
    destruct (filter _ col); [by apply elem_of_nil in Hf|simpl; lia].
Qed.

Lemma value_counts_nil col : value_counts col = [] ↔ ∀ k, Some k ∉ col.
Proof.
  split.
  - intros Hnil k Hk. apply occurrences_of_pos in Hk.
    assert ((k, occurrences_of k col) ∈ value_counts col) as Hin
      by (by apply value_counts_elem_of).
    rewrite Hnil in Hin. by apply elem_of_nil in Hin.
  - intros Hnone. destruct (value_counts col) as [|[k n] l] eqn:Hvc; [done|].
    assert ((k, n) ∈ value_counts col) as Hin by (rewrite Hvc; by left).
    apply value_counts_elem_of in Hin as [-> Hpos].
    apply occurrences_of_pos in Hpos. by destruct (Hnone k).
Qed.

Lemma column_rows_nil col c : column_rows col c = [] ↔ ∀ k, Some k ∉ cells c.
Proof.
  rewrite <- value_counts_nil. unfold column_rows.
  destruct (value_counts (cells c)); simpl; [done|]. split; intros [=].
Qed.

Lemma top_rows_nil df :
  top_rows df = [] ↔
  ∀ name c, (name, c) ∈ columns df → is_numeric c = false →
            ∀ k, Some k ∉ cells c.
Proof.
  unfold top_rows. induction (columns df) as [|[name c] cols IH]; simpl.
  - split; [|done]. intros _ name c Hin. by apply elem_of_nil in Hin.
  - rewrite filter_cons. simpl. destruct (decide (is_numeric c = false)) as [Hc|Hc].
    + simpl. split.
      * intros Happ. apply app_nil in Happ as [Hrows Hrest].
        intros name' c' Hin Hc' k. apply elem_of_cons in Hin as [[= -> ->]|Hin].
        -- by apply (column_rows_nil name c).
        -- by apply (proj1 IH Hrest name' c').
      * intros Hall. apply app_nil. split.
        -- apply column_rows_nil. intros k. apply (Hall name c); [by left|done].
        -- apply IH. intros name' c' Hin. apply (Hall name' c'). by right.
    + rewrite IH. split.
      * intros Hall name' c' Hin Hc' k.
        apply elem_of_cons in Hin as [[= -> ->]|Hin];
          [done|by apply (Hall name' c')].
      * intros Hall name' c' Hin. apply (Hall name' c'). by right.
Qed.

Lemma sorted_app_elem_of {A} (R : A → A → Prop) l1 l2 a b :
  StronglySorted R (l1 ++ l2) → a ∈ l1 → b ∈ l2 → R a b.
Proof.
  induction l1 as [|c l1 IH]; simpl; intros Hs Ha Hb.
  - by apply elem_of_nil in Ha.
  - apply StronglySorted_inv in Hs as [Hs Hall].
    apply elem_of_cons in Ha as [->|Ha]; [|auto].
    rewrite Forall_forall in Hall. apply Hall, elem_of_app. by right.
Qed.

Lemma freq_table_sorted_witness :
  ∃ table, freq_table ten_rows = Ok table ∧ table ≡ₚ top_rows ten_rows ∧
           StronglySorted row_order table.
Proof.
  apply (freq_table_sorted ten_rows).
  - apply (bool_decide_unpack _). vm_compute. exact I.
  - vm_compute. discriminate.
Defined.

(** X13: on a frame with distinct labels, the frequency table raises its
    KeyError exactly when no categorical column holds a non-missing cell
    (in particular when the frame has no categorical column); otherwise a
    table is shown. *)
Theorem freq_table_raises_iff df :
  NoDup (column_names df) →
  (freq_table df = Raise (KeyError "Column") ↔
   ∀ name c, (name, c) ∈ columns df → is_numeric c = false →
             ∀ k, Some k ∉ cells c) ∧
  (freq_table df = Raise (KeyError "Column") ∨ ∃ table, freq_table df = Ok table).
Proof.
  intros Hnd. rewrite <- top_rows_nil. unfold freq_table.
  rewrite (collect_rows_top_rows _ Hnd). simpl.
  destruct (top_rows df) as [|r rows]; simpl.
  - split; [done|by left].
  - split; [split; intros [=]|right; by eexists].
Qed.

Lemma freq_table_raises_iff_witness :
  (freq_table measurements = Raise (KeyError "Column") ↔
   ∀ name c, (name, c) ∈ columns measurements → is_numeric c = false →
             ∀ k, Some k ∉ cells c) ∧
  (freq_table measurements = Raise (KeyError "Column")
   ∨ ∃ table, freq_table measurements = Ok table).
Proof.
  apply (freq_table_raises_iff measurements).
  apply (bool_decide_unpack _). vm_compute. exact I.
Defined.

(** X14: the rows collected for one categorical column are at most five;
    each carries the column's label and a value of the column with its
    number of occurrences; and they are its most frequent values: a value
    of the column that got no row occurs no more often than any value
    that got one. *)
Theorem column_rows_most_frequent col c :
  length (column_rows col c) ≤ 5 ∧
  (∀ r, r ∈ column_rows col c →
     Column r = col ∧
     ∃ k, Category r = key_str k ∧
          Count r = Z.of_nat (occurrences_of k (cells c)) ∧
          Some k ∈ cells c) ∧
  (∀ k, Some k ∈ cells c →
     (∃ r, r ∈ column_rows col c ∧ Category r = key_str k ∧
           Count r = Z.of_nat (occurrences_of k (cells c))) ∨
     (∀ r, r ∈ column_rows col c →
           (Z.of_nat (occurrences_of k (cells c)) ≤ Count r)%Z)).
Proof.
  unfold column_rows. split; [|split].
  - rewrite length_map, length_take. lia.
  - intros r Hr. apply list_elem_of_fmap in Hr as ([k n] & -> & Hin).
    simpl. split; [done|]. exists k.
    apply (subseteq_take 5), value_counts_elem_of in Hin as [-> Hpos].
    by apply occurrences_of_pos in Hpos.
  - intros k Hk. apply occurrences_of_pos in Hk.
    assert ((k, occurrences_of k (cells c)) ∈ value_counts (cells c)) as Hin
      by (by apply value_counts_elem_of).
    pose proof (value_counts_sorted (cells c)) as Hsorted.
    rewrite <- (take_drop 5 (value_counts (cells c))) in Hin, Hsorted.
    apply elem_of_app in Hin as [Hin|Hin].
    + left. eexists. split; [by apply list_elem_of_fmap_2|]. done.
    + right. intros r Hr.
      apply list_elem_of_fmap in Hr as ([k' n'] & -> & Hin').
      pose proof (sorted_app_elem_of _ _ _ _ _ Hsorted Hin' Hin) as Hle.
      simpl in *. lia.
Qed.

End ReportFacts.

(** ** More on the query section *)

Module MatcherFacts.
Import Pandas Profiler Query PandasFacts ChartsFacts QueryFacts ReportFacts.

Lemma lower_ascii_idemp c : lower_ascii (lower_ascii c) = lower_ascii c.
Proof. by destruct c as [[] [] [] [] [] [] [] []]. Qed.

Lemma lower_idemp s : lower (lower s) = lower s.
Proof.
  induction s as [|c s IH]; simpl; [done|]. by rewrite lower_ascii_idemp, IH.
Qed.

Lemma lower_empty s : lower s = "" ↔ s = "".
Proof. by destruct s. Qed.

Lemma groupby_nil {V} keys (vals : list V) :
  (∀ k, Some k ∉ keys) → groupby keys vals = [].
Proof.
  intros Hnone. unfold groupby.
  assert (∀ g, fold_left group_step (combine keys vals) g = g) as ->; [|done].
  revert vals. induction keys as [|c keys IH]; intros [|v vals] g; simpl; try done.
  destruct c as [k|].
  - destruct (Hnone k). by left.
  - unfold group_step at 2. simpl. apply IH. intros k Hk.
    apply (Hnone k). by right.
Qed.

Lemma groupby_numeric_nil keys vals :
  (∀ k, Some k ∉ keys) → groupby_numeric keys vals = [].
Proof.
  intros Hnone. destruct vals; simpl; by rewrite (groupby_nil _ _ Hnone).
Qed.

(** X15: on a frame without a "make" column every non-empty query gets the
    informational fallback, whatever keywords it holds; nothing is raised. *)
Theorem query_without_make df query :
  query ≠ "" → has_column df "make" = false →
  query_section df query = Ok fallback.
Proof.
  intros Hne Hmake. unfold query_section, asks_highest_price, asks_most_cars.
  rewrite decide_False by done. by rewrite Hmake, !andb_false_r.
Qed.

Lemma query_without_make_witness :
  query_section measurements "highest price? most cars?" = Ok fallback.
Proof.
  apply (query_without_make measurements "highest price? most cars?").
  - discriminate.
  - reflexivity.
Defined.

(** X16: the answer does not depend on the capitalisation of the ASCII
    letters of the query: a query and its lower-cased form get the same
    output. *)
Theorem query_case_insensitive df query :
  query_section df (lower query) = query_section df query.
Proof.
  unfold query_section. rewrite lower_idemp.
  destruct (decide (query = "")) as [->|Hne]; [done|].
  rewrite decide_False; [done|]. by rewrite lower_empty.
Qed.

(** X17: when the "make" column holds no non-missing cell (every make
    left blank, say), both answer branches raise an IndexError:
    their one-row result is empty and its first label is read. *)
Theorem query_on_empty_make df query mk :
  query ≠ "" →
  find_column (columns df) "make" = Some mk →
  (∀ k, Some k ∉ cells mk) →
  (asks_highest_price df (lower query) = true →
   ∀ vals, find_column (columns df) "price" = Some (NumCol vals) →
           query_section df query = Raise IndexError) ∧
  (asks_highest_price df (lower query) = false →
   asks_most_cars df (lower query) = true →
   query_section df query = Raise IndexError).
Proof.
  intros Hne Hmk Hnone. unfold query_section. rewrite decide_False by done.
  cbn zeta. split.
  - intros -> vals Hpr. unfold best_by_price.
    rewrite (get_found _ _ _ Hmk), (get_found _ _ _ Hpr).
    cbn [mbind result_bind numeric_values].
    by rewrite (groupby_numeric_nil _ _ Hnone).
  - intros -> ->. unfold most_cars. rewrite (get_found _ _ _ Hmk).
    cbn [mbind result_bind].
    by rewrite (proj2 (value_counts_nil _) Hnone).
Qed.

Lemma query_on_empty_make_witness :
  query_section blank_makes "Highest price?" = Raise IndexError ∧
  query_section blank_makes "Most cars?" = Raise IndexError.
Proof.
  assert (∀ k : key, Some k ∉ cells (NumCol (Float64 [nan; nan]))) as Hnone.
  { intros k Hk.
    repeat (apply elem_of_cons in Hk as [Hk|Hk]; [discriminate Hk|]).
    by apply elem_of_nil in Hk. }
  split.
  - apply (proj1 (query_on_empty_make blank_makes "Highest price?"
                    (NumCol (Float64 [nan; nan]))
                    ltac:(discriminate) eq_refl Hnone) eq_refl (Int64 [10; 20]%Z)).
    reflexivity.
  - apply (proj2 (query_on_empty_make blank_makes "Most cars?"
                    (NumCol (Float64 [nan; nan]))
                    ltac:(discriminate) eq_refl Hnone)); reflexivity.
Defined.

End MatcherFacts.

(** ** Aggregated and plain charts side by side *)

Module AggregationFacts.
Import Pandas Charts Query PandasFacts ChartsFacts ReportFacts.

Lemma value_counts_keys col k : k ∈ map fst (value_counts col) ↔ Some k ∈ col.
Proof.
  rewrite <- occurrences_of_pos. split.
  - intros Hin. apply list_elem_of_fmap in Hin as ([k' n] & -> & Hin).
    by apply value_counts_elem_of in Hin as [-> ?].
  - intros Hpos. apply list_elem_of_fmap. eexists (k, _). split; [done|].
    by apply value_counts_elem_of.
Qed.

(** X18: a Bar or Line chart whose aggregation box is ticked but whose
    value column is unset (or the empty label) is rendered exactly as if
    the box were not ticked: the frequency chart, not an error. *)
Theorem aggregation_without_value_column df i cfg :
  y cfg = None ∨ y cfg = Some "" →
  render df i cfg = render df i (with_aggregation false None None cfg).
Proof.
  intros Hy. unfold render, aggregated_column, with_aggregation. simpl.
  destruct Hy as [-> | ->]; by destruct (chart_type cfg), (use_agg cfg).
Qed.

Lemma aggregation_without_value_column_witness :
  render cars 0 (with_aggregation true None (Some Sum) (plain Line))
  = render cars 0 (plain Line).
Proof.
  apply (aggregation_without_value_column cars 0
           (with_aggregation true None (Some Sum) (plain Line))).
  left. reflexivity.
Defined.

(** X19: on a frame whose columns have equal length, switching the
    aggregation of a Bar or Line chart on or off neither adds nor drops a
    category, as long as the category column is not labelled "value": the
    aggregated frame and the frequency frame list the same category values
    (in ascending order of category for the first, by descending count for
    the second). *)
Theorem aggregation_keeps_categories df i cfg yname xc vals :
  well_formed df →
  chart_type cfg = Bar ∨ chart_type cfg = Line →
  aggregated_column cfg = Some yname →
  find_column (columns df) (x cfg) = Some xc →
  find_column (columns df) yname = Some (NumCol vals) →
  x cfg ≠ "value" →
  ∃ fig fig' counts,
    render df i cfg = Ok fig ∧
    render df i (with_aggregation false None None cfg) = Ok fig' ∧
    (∀ k, k ∈ map fst (plot_df fig) ↔ k ∈ map fst (plot_df fig')) ∧
    StronglySorted key_lt (map fst (plot_df fig)) ∧
    plot_df fig' = counts_frame counts ∧
    StronglySorted (λ a b, snd b ≤ snd a) counts.
Proof.
  intros Hwf Hty Hagg Hx Hy Hne.
  destruct (render_bar_line df i cfg
    (map (λ p, (fst p, reduce (agg cfg) (snd p)))
         (groupby_numeric (cells xc) vals)) Hty)
    as (fig & Hfig & Hframe & _).
  { rewrite Hagg. by apply aggregated_frame_found. }
  destruct (render_bar_line df i (with_aggregation false None None cfg)
    (counts_frame (value_counts (cells xc))) Hty)
    as (fig' & Hfig' & Hframe' & _).
  { simpl. by apply frequency_frame_found. }
  exists fig, fig', (value_counts (cells xc)).
  split; [done|]. split; [done|].
  rewrite Hframe, Hframe', counts_frame_keys, map_map. simpl.
  pose proof (column_lengths _ _ _ _ _ Hwf Hx Hy) as Hlen.
  assert (labels_only (cells xc)) as Hkeys by (intros ?; apply cells_labels).
  split; [|split; [|split]].
  - intros k.
    by rewrite (groupby_numeric_labels _ _ _ Hkeys Hlen), value_counts_keys.
  - by apply groupby_numeric_sorted.
  - done.
  - apply value_counts_sorted.
Qed.

Lemma aggregation_keeps_categories_witness :
  ∃ fig fig' counts,
    render cars 0 (bar_of Sum) = Ok fig ∧
    render cars 0 (with_aggregation false None None (bar_of Sum)) = Ok fig' ∧
    (∀ k, k ∈ map fst (plot_df fig) ↔ k ∈ map fst (plot_df fig')) ∧
    StronglySorted key_lt (map fst (plot_df fig)) ∧
    plot_df fig' = counts_frame counts ∧
    StronglySorted (λ a b, snd b ≤ snd a) counts.
Proof.
  apply (aggregation_keeps_categories cars 0 (bar_of Sum) "price"
           (StrCol [Some "A"; Some "A"; Some "B"])
           (Int64 [10; 20; 30]%Z)).
  - repeat constructor.
  - left. reflexivity.
  - reflexivity.
  - reflexivity.
  - reflexivity.
  - discriminate.
Defined.

(** X20: the counted or aggregated values are labelled "value" by
    [reset_index(name="value")] for a Bar or Line chart, and keep the label
    "count" in [reset_index()] for a Pie or Doughnut chart; a category
    column that already carries that label makes the render raise a
    ValueError.  A Pie or Doughnut chart of a column labelled "value" gets
    a frame whose two labels are both "value". *)
Theorem label_clash_raises df i cfg xc :
  find_column (columns df) (x cfg) = Some xc →
  (chart_type cfg = Bar ∨ chart_type cfg = Line →
   x cfg = "value" →
   (∀ yname, aggregated_column cfg = Some yname →
      ∃ vals, find_column (columns df) yname = Some (NumCol vals)) →
   render df i cfg = Raise ValueError) ∧
  (chart_type cfg = Pie ∨ chart_type cfg = Doughnut →
   x cfg = "count" → render df i cfg = Raise ValueError) ∧
  (chart_type cfg = Pie ∨ chart_type cfg = Doughnut →
   x cfg = "value" →
   ∃ fig, render df i cfg = Ok fig ∧ labels fig = ["value"; "value"]).
Proof.
  intros Hx. split; [|split].
  - intros Hty Hvalue Hy.
    assert (match aggregated_column cfg with
            | Some yname => aggregated_frame df (x cfg) yname (agg cfg)
            | None => frequency_frame df (x cfg)
            end = Raise ValueError) as Hframe.
    { unfold aggregated_frame, frequency_frame.
      rewrite (get_found _ _ _ Hx), Hvalue.
      destruct (aggregated_column cfg) as [yname|]; simpl.
      - destruct (Hy yname eq_refl) as [vals Hvals].
        rewrite (get_found _ _ _ Hvals). simpl. apply reset_index_clash.
      - apply reset_index_clash. }
    unfold render. by destruct Hty as [-> | ->]; rewrite Hframe.
  - intros Hty Hcount.
    assert (pie_frame df (x cfg) = Raise ValueError) as Hframe.
    { unfold pie_frame. rewrite (get_found _ _ _ Hx), Hcount. simpl.
      apply reset_index_clash. }
    unfold render. by destruct Hty as [-> | ->]; rewrite Hframe.
  - intros Hty Hvalue.
    assert (x cfg ≠ "count") as Hne by (by rewrite Hvalue).
    unfold render. rewrite (pie_frame_found _ _ _ Hx Hne), Hvalue.
    destruct Hty as [-> | ->]; simpl; by eexists.
Qed.

Lemma label_clash_raises_witness :
  render value_frame 0 value_sums = Raise ValueError ∧
  render count_frame 0 (chart_of Pie "count") = Raise ValueError ∧
  ∃ fig, render value_frame 0 (chart_of Doughnut "value") = Ok fig ∧
         labels fig = ["value"; "value"].
Proof.
  split; [|split].
  - apply (proj1 (label_clash_raises value_frame 0 value_sums
                    (StrCol [Some "A"; Some "A"; Some "B"]) eq_refl)).
    + left. reflexivity.
    + reflexivity.
    + intros yname [= <-]. by eexists.
  - apply (proj1 (proj2 (label_clash_raises count_frame 0 (chart_of Pie "count")
                           (StrCol [Some "A"; Some "A"; Some "B"]) eq_refl))).
    + left. reflexivity.
    + reflexivity.
  - apply (proj2 (proj2 (label_clash_raises value_frame 0
                           (chart_of Doughnut "value")
                           (StrCol [Some "A"; Some "A"; Some "B"]) eq_refl))).
    + right. reflexivity.
    + reflexivity.
Defined.

End AggregationFacts.
